(** * A shallow embedding of the voxel demo, [src/pages/MinecraftGame.tsx]

    The development follows the body of the component's effect: the height
    field [noise], the chunk builder [createMergedChunk], the world loop that
    fills [chunks], the input handlers ([handleKeyDown], [handleKeyUp],
    [handleMouseMove], [handleClick], [handlePointerLockChange],
    [updateGamepad]) and the frame callback [animate]; then the hotbar as
    the component draws it, what the effect registers with the host and
    what its cleanup releases ([Dom]), and the frame loops that earlier runs
    of the effect leave behind ([Page]).

    Conventions.
    - A JavaScript [number] that holds a measure (angles, coordinates of the
      camera, speeds, times) is a real number of [R]: arithmetic is exact,
      [Math.sin], [Math.cos], [Math.sqrt] are [sin], [cos], [sqrt], and there
      is neither rounding nor [NaN].  Every statement below is a statement
      about this exact-arithmetic reading of the program, but for the swing
      speed of the arm: an idle player lets it run down through the whole
      range of the doubles, where the exact reading says nothing of the
      code, so [Double] follows it in binary64.
    - A [number] that is a loop counter, a chunk or block coordinate, or a
      hotbar index is an integer of [Z].
    - A JavaScript string is the [string] of its UTF-16 code units, each
      below 256, as are those of the codes of keys; text with other code
      units is outside the model.  (The icons of the inventory, which nothing
      reads, are kept as the bytes of their UTF-8 encoding.)
    - The variables the effect declares with [let]/[const] and that its
      callbacks share form the record [Closure]; the React state of the
      component is the rest of the record [Game].  Every callback is a function
      from the state before the call to the state after it. *)

From Stdlib Require Import Floats QArith.
From Stdlib Require Import ZArith List String Ascii Reals Lra Lia.
From Stdlib Require Import DecimalString DecimalZ DecimalPos.
From stdpp Require Import gmap strings list.

Set Warnings "-inexact-float".

Local Open Scope Z_scope.

(** ** Constants of the module *)

Definition CHUNK_SIZE : Z := 12.
Definition RENDER_DISTANCE : Z := 3.
Definition BLOCK_SIZE : Z := 1.

(** ** JavaScript operators on numbers *)

Module Js.
Local Open Scope R_scope.

#[export] Instance Rlt_decision (a b : R) : Decision (a < b) := Rlt_dec a b.
#[export] Instance Rle_decision (a b : R) : Decision (a <= b) := Rle_dec a b.
#[export] Instance Req_decision : EqDecision R := Req_dec_T.

(** [a || b] on two numbers: [a] unless it is falsy, that is, zero. *)
Definition or_number (a b : R) : R := if decide (a = 0) then b else a.

(** [Math.round]: the nearest integer, a half rounded up. *)
Definition round (a : R) : Z := Zfloor (a + 0.5).

(** [for (let i = lo; i < hi; i++)]: the values [i] takes, in order. *)
Definition for_range (lo hi : Z) : list Z := seqZ lo (hi - lo).
End Js.
Export Js.

(** ** The parts of three.js the program calls *)

Module Vector3.
Local Open Scope R_scope.

Record t : Type := mk { x : R; y : R; z : R }.

(** [v.set(a, b, c)] *)
Definition set (_ : t) (a b c : R) : t := mk a b c.
Definition setX (v : t) (a : R) : t := mk a (y v) (z v).
Definition setZ (v : t) (c : R) : t := mk (x v) (y v) c.

(** [v.length()] *)
Definition length (v : t) : R := sqrt (x v * x v + y v * y v + z v * z v).

(** [v.multiplyScalar(s)] and [v.divideScalar(s)], the latter being
    [multiplyScalar(1 / s)] in three.js. *)
Definition multiplyScalar (v : t) (s : R) : t := mk (x v * s) (y v * s) (z v * s).
Definition divideScalar (v : t) (s : R) : t := multiplyScalar v (1 / s).

(** [v.normalize()] is [v.divideScalar(v.length() || 1)]. *)
Definition normalize (v : t) : t := divideScalar v (or_number (length v) 1).

(** [v.addScaledVector(w, s)] and [v.add(w)] *)
Definition addScaledVector (v w : t) (s : R) : t :=
  mk (x v + x w * s) (y v + y w * s) (z v + z w * s).
Definition add (v w : t) : t := mk (x v + x w) (y v + y w) (z v + z w).

(** The difference of two positions (used in statements only). *)
Definition sub (v w : t) : t := mk (x v - x w) (y v - y w) (z v - z w).

Definition zero : t := mk 0 0 0.
End Vector3.

(** A geometry is the list of the boxes it is made of; a box of
    [BoxGeometry(BLOCK_SIZE, BLOCK_SIZE, BLOCK_SIZE)] is given by its centre,
    whose coordinates are integers since the program translates by integers
    only. *)
Record Box : Type := mkBox { centreX : Z; centreY : Z; centreZ : Z }.

Definition BufferGeometry : Type := list Box.

Module Geometry.
(** [new THREE.BufferGeometry()]: no vertex at all. *)
Definition empty : BufferGeometry := [].
(** [new THREE.BoxGeometry(BLOCK_SIZE, BLOCK_SIZE, BLOCK_SIZE)]: one cube
    centred at the origin. *)
Definition BoxGeometry : BufferGeometry := [mkBox 0 0 0].
Definition clone (g : BufferGeometry) : BufferGeometry := g.
Definition translate (g : BufferGeometry) (dx dy dz : Z) : BufferGeometry :=
  map (fun b => mkBox (centreX b + dx) (centreY b + dy) (centreZ b + dz)) g.
(** [mergeGeometries(gs)] of three's [BufferGeometryUtils]: one geometry
    with the vertices of all of [gs], in order. *)
Definition mergeGeometries (gs : list BufferGeometry) : BufferGeometry := concat gs.
End Geometry.

(** The namespace object [THREE] as the program sees it: the member
    [BufferGeometryUtils] may be missing, and so may its [mergeGeometries]. *)
Record GeometryUtils : Type :=
  { mergeGeometries : option (list BufferGeometry -> BufferGeometry) }.
Record Namespace : Type :=
  { BufferGeometryUtils : option GeometryUtils }.

Definition THREE_core : Namespace := {| BufferGeometryUtils := None |}.
Definition THREE_with_utils : Namespace :=
  {| BufferGeometryUtils := Some {| mergeGeometries := Some Geometry.mergeGeometries |} |}.

Inductive Material : Type := grass | dirt | stone.

Record Mesh : Type := mkMesh { geometry : BufferGeometry; material : Material }.

(** ** Height field and chunk builder *)

Section Terrain.
Local Open Scope R_scope.

Definition noise (x z : R) : R :=
  let xx := x * 0.1 in
  let zz := z * 0.1 in
  sin xx * cos zz * 3 +
  sin (xx * 2) * cos (zz * 2) * 1.5 +
  sin (xx * 4) * cos (zz * 4) * 0.75.

Definition blockGeometry : BufferGeometry := Geometry.BoxGeometry.

(** The geometry pushed for the local column [(x, z)] of chunk [(cx, cz)]:
    the body of the inner loop of [createMergedChunk]. *)
Definition column_geometry (cx cz x z : Z) : BufferGeometry :=
  let worldX := (cx * CHUNK_SIZE + x)%Z in
  let worldZ := (cz * CHUNK_SIZE + z)%Z in
  let height := Zfloor (noise (IZR worldX) (IZR worldZ) + 8) in
  let geo := Geometry.clone blockGeometry in
  Geometry.translate geo worldX height worldZ.

(** The array [geometries] when the two loops are over. *)
Definition chunk_geometries (cx cz : Z) : list BufferGeometry :=
  flat_map (fun x => map (fun z => column_geometry cx cz x z) (for_range 0 CHUNK_SIZE))
           (for_range 0 CHUNK_SIZE).

Definition createMergedChunk (THREE : Namespace) (cx cz : Z) : BufferGeometry :=
  let geometries := chunk_geometries cx cz in
  let mergedGeometry := Geometry.empty in
  match geometries with
  | first :: _ =>
      match BufferGeometryUtils THREE ≫= mergeGeometries with
      | Some merge => merge geometries
      | None => first
      end
  | [] => mergedGeometry
  end.

(** The array [chunks] when the world loop is over. *)
Definition chunks (THREE : Namespace) : list Mesh :=
  flat_map (fun cx => map (fun cz => let chunkGeometry := createMergedChunk THREE cx cz in
                                     let chunkMesh := mkMesh chunkGeometry grass in
                                     chunkMesh)
                          (for_range (- RENDER_DISTANCE) RENDER_DISTANCE))
           (for_range (- RENDER_DISTANCE) RENDER_DISTANCE).

(** The chunk coordinates in the order the world loop visits them. *)
Definition chunk_coordinates : list (Z * Z) :=
  flat_map (fun cx => map (fun cz => (cx, cz)) (for_range (- RENDER_DISTANCE) RENDER_DISTANCE))
           (for_range (- RENDER_DISTANCE) RENDER_DISTANCE).

(** Every block geometry built while the world is assembled. *)
Definition world_blocks : list BufferGeometry :=
  flat_map (fun c => chunk_geometries (fst c) (snd c)) chunk_coordinates.
End Terrain.

(** ** JavaScript strings: [startsWith], [replace], [parseInt] *)

Module JsString.
Local Open Scope string_scope.

(** [s.startsWith(p)] *)
Fixpoint startsWith (s p : string) {struct p} : bool :=
  match p, s with
  | EmptyString, _ => true
  | String a p', String b s' => Ascii.eqb a b && startsWith s' p'
  | String _ _, EmptyString => false
  end.

Fixpoint drop (n : nat) (s : string) : string :=
  match n, s with
  | S n', String _ s' => drop n' s'
  | _, _ => s
  end.

(** [s.replace(p, r)] with a string pattern: the first occurrence of [p]
    in [s], if any, is replaced by [r]. *)
Fixpoint replace (s p r : string) : string :=
  if startsWith s p then r +:+ drop (String.length p) s
  else match s with
       | String c s' => String c (replace s' p r)
       | EmptyString => EmptyString
       end.

(** The white space and line terminators that [parseInt] skips, among the
    code units below 256: TAB, LF, VT, FF, CR, the space and the no-break
    space U+00A0.  The others (U+1680, U+2000 to U+200A, U+2028, U+2029,
    U+202F, U+205F, U+3000, U+FEFF) are no code units of the strings of the
    model. *)
Definition is_white_space (c : ascii) : bool :=
  let n := nat_of_ascii c in
  ((9 <=? n)%nat && (n <=? 13)%nat) || (n =? 32)%nat || (n =? 160)%nat.

Fixpoint trim_start (s : string) : string :=
  match s with
  | String c s' => if is_white_space c then trim_start s' else s
  | EmptyString => EmptyString
  end.

(** The value of [c] as a digit in the given radix, if it is one. *)
Definition digit_value (radix : Z) (c : ascii) : option Z :=
  let n := Z.of_nat (nat_of_ascii c) in
  let v := if (48 <=? n)%Z && (n <=? 57)%Z then Some (n - 48)%Z
           else if (97 <=? n)%Z && (n <=? 122)%Z then Some (n - 87)%Z
           else if (65 <=? n)%Z && (n <=? 90)%Z then Some (n - 55)%Z
           else None in
  v ≫= (fun d => if (d <? radix)%Z then Some d else None).

(** The longest prefix of [s] made of digits, read in the radix; [acc] is
    [None] until a digit has been read. *)
Fixpoint parse_digits (radix : Z) (s : string) (acc : option Z) : option Z :=
  match s with
  | String c s' =>
      match digit_value radix c with
      | Some d => parse_digits radix s' (Some (default 0%Z acc * radix + d)%Z)
      | None => acc
      end
  | EmptyString => acc
  end.

(** A sign in front, if any, and what follows it. *)
Definition read_sign (s : string) : Z * string :=
  match s with
  | String "-" rest => ((-1)%Z, rest)
  | String "+" rest => (1%Z, rest)
  | _ => (1%Z, s)
  end.

(** The radix: 16 after the prefix 0x or 0X, which is dropped, else 10. *)
Definition read_radix (s : string) : Z * string :=
  match s with
  | String "0" (String "x" rest) | String "0" (String "X" rest) => (16%Z, rest)
  | _ => (10%Z, s)
  end.

(** [parseInt(s)] with no radix; [None] is [NaN]. *)
Definition parseInt (s : string) : option Z :=
  let '(sign, s2) := read_sign (trim_start s) in
  let '(radix, s3) := read_radix s2 in
  Z.mul sign <$> parse_digits radix s3 None.
End JsString.

(** ** State of the component *)

Record Stick : Type := mkStick { stick_x : R; stick_y : R }.

Record GamepadState : Type := mkGamepadState
  { leftStick : Stick; rightStick : Stick; buttons : list bool }.

(** What [navigator.getGamepads()[0]] exposes: the axes and, for each button,
    its [pressed] flag. *)
Record Gamepad : Type := mkGamepad { axes : list R; pressed : list bool }.

(** What one call of [animate] reads from the host: [performance.now()] and
    [navigator.getGamepads()[0]] ([None] when it is null or undefined). *)
Record Frame : Type := mkFrame { now : R; gamepad0 : option Gamepad }.

(** The variables of the effect that its callbacks share. *)
Record Closure : Type := mkClosure
  { keys : gmap string bool;
    velocity : Vector3.t;
    direction : Vector3.t;
    yaw : R;
    pitch : R;
    armSwing : R;
    armSwingSpeed : R;
    gamepadState : GamepadState;
    camera_position : Vector3.t;
    (** [camera.rotation], an Euler triple of order YXZ *)
    camera_rotation : Vector3.t;
    armGroup_rotation : Vector3.t;
    lastTime : R;
    frameCount : Z;
    fpsUpdateTime : R }.

(** The React state of the component with the closure of its live effect. *)
Record Game : Type := mkGame
  { health : Z;
    selectedSlot : Z;
    isPointerLocked : bool;
    fps : Z;
    env : Closure }.

Definition with_env (g : Game) (c : Closure) : Game :=
  mkGame (health g) (selectedSlot g) (isPointerLocked g) (fps g) c.

(** [setSelectedSlot], [setIsPointerLocked] and [setFps]. *)
Definition setSelectedSlot (slot : Z) (g : Game) : Game :=
  mkGame (health g) slot (isPointerLocked g) (fps g) (env g).
Definition setIsPointerLocked (b : bool) (g : Game) : Game :=
  mkGame (health g) (selectedSlot g) b (fps g) (env g).
Definition setFps (n : Z) (g : Game) : Game :=
  mkGame (health g) (selectedSlot g) (isPointerLocked g) n (env g).

Definition with_keys (c : Closure) (ks : gmap string bool) : Closure :=
  mkClosure ks (velocity c) (direction c) (yaw c) (pitch c) (armSwing c)
    (armSwingSpeed c) (gamepadState c) (camera_position c) (camera_rotation c)
    (armGroup_rotation c) (lastTime c) (frameCount c) (fpsUpdateTime c).

Definition with_look (c : Closure) (new_yaw new_pitch : R) : Closure :=
  mkClosure (keys c) (velocity c) (direction c) new_yaw new_pitch (armSwing c)
    (armSwingSpeed c) (gamepadState c) (camera_position c) (camera_rotation c)
    (armGroup_rotation c) (lastTime c) (frameCount c) (fpsUpdateTime c).

Definition with_gamepadState (c : Closure) (gs : GamepadState) : Closure :=
  mkClosure (keys c) (velocity c) (direction c) (yaw c) (pitch c) (armSwing c)
    (armSwingSpeed c) gs (camera_position c) (camera_rotation c)
    (armGroup_rotation c) (lastTime c) (frameCount c) (fpsUpdateTime c).

(** [keys] is a plain object; the model keeps its own entries.
    [keys[code]] read as a condition, for a code that [Object.prototype] does
    not name, as are the four codes that [animate] reads: the own entry, a
    missing one being undefined, hence falsy. *)
Definition held (ks : gmap string bool) (code : string) : bool :=
  default false (ks !! code).

(** [keys[code] = v]: the entry of the object is written, except under the
    name [__proto__], where the assignment reaches the setter of
    [Object.prototype], which ignores a value that is not an object and makes
    no entry. *)
Definition set_entry (ks : gmap string bool) (code : string) (v : bool) : gmap string bool :=
  if decide (code = "__proto__") then ks else <[code := v]> ks.

(** [a[i] = v] on an array: past the end the array grows, the holes left in
    between reading as falsy. *)
Definition array_assign (a : list bool) (i : nat) (v : bool) : list bool :=
  if decide (i < length a)%nat then <[i:=v]> a
  else a ++ replicate (i - length a) false ++ [v].

(** ** Event handlers and the frame callback *)

Section Handlers.
Local Open Scope R_scope.

Definition handleKeyDown (code : string) (g : Game) : Game :=
  let g1 := with_env g (with_keys (env g) (set_entry (keys (env g)) code true)) in
  if JsString.startsWith code "Digit" then
    let slot := (fun n => n - 1)%Z <$> JsString.parseInt (JsString.replace code "Digit" "") in
    match slot with
    | Some s => if (0 <=? s)%Z && (s <? 9)%Z then setSelectedSlot s g1 else g1
    | None => g1 (* NaN: both comparisons are false *)
    end
  else g1.

Definition handleKeyUp (code : string) (g : Game) : Game :=
  with_env g (with_keys (env g) (set_entry (keys (env g)) code false)).

Definition handleMouseMove (movementX movementY : R) (g : Game) : Game :=
  if negb (isPointerLocked g) then g
  else
    let c := env g in
    let yaw1 := yaw c - movementX * 0.002 in
    let pitch1 := pitch c - movementY * 0.002 in
    let pitch2 := Rmax (- PI / 2) (Rmin (PI / 2) pitch1) in
    with_env g (with_look c yaw1 pitch2).

(** [requestPointerLock] asks the host; the answer, if any, comes back as a
    pointerlockchange event, so no variable changes here. *)
Definition handleClick (g : Game) : Game :=
  if negb (isPointerLocked g) then g else g.

(** [Math.abs(gamepad.axes[i]) > 0.1 ? gamepad.axes[i] : 0]; a missing
    axis is undefined, whose absolute value compares false. *)
Definition axis_reading (a : option R) : R :=
  match a with
  | Some v => if decide (0.1 < Rabs v) then v else 0
  | None => 0
  end.

(** The loop over [gamepad.buttons]. *)
Definition copy_buttons (ps : list bool) (bs : list bool) : list bool :=
  foldl (fun acc ip => array_assign acc (fst ip) (snd ip)) bs (imap pair ps).

Definition updateGamepad (gamepad : option Gamepad) (c : Closure) : Closure :=
  match gamepad with
  | Some gp =>
      let left := mkStick (axis_reading (axes gp !! 0%nat)) (axis_reading (axes gp !! 1%nat)) in
      let right := mkStick (axis_reading (axes gp !! 2%nat)) (axis_reading (axes gp !! 3%nat)) in
      let yaw1 := yaw c - stick_x right * 0.05 in
      let pitch1 := pitch c - stick_y right * 0.05 in
      let pitch2 := Rmax (- PI / 2) (Rmin (PI / 2) pitch1) in
      let bs := copy_buttons (pressed gp) (buttons (gamepadState c)) in
      with_gamepadState (with_look c yaw1 pitch2) (mkGamepadState left right bs)
  | None => c
  end.

Definition moveSpeed : R := 0.15.

(** The condition [isMoving] of [animate]. *)
Definition isMoving (c : Closure) : bool :=
  held (keys c) "KeyW" || held (keys c) "KeyS" || held (keys c) "KeyA" || held (keys c) "KeyD"
  || bool_decide (0.1 < Rabs (stick_x (leftStick (gamepadState c))))
  || bool_decide (0.1 < Rabs (stick_y (leftStick (gamepadState c)))).

(** The four conditions under which [animate] writes a component of
    [direction]. *)
Definition goes_forward (c : Closure) : bool :=
  held (keys c) "KeyW" || bool_decide (stick_y (leftStick (gamepadState c)) < -0.1).
Definition goes_back (c : Closure) : bool :=
  held (keys c) "KeyS" || bool_decide (0.1 < stick_y (leftStick (gamepadState c))).
Definition goes_left (c : Closure) : bool :=
  held (keys c) "KeyA" || bool_decide (stick_x (leftStick (gamepadState c)) < -0.1).
Definition goes_right (c : Closure) : bool :=
  held (keys c) "KeyD" || bool_decide (0.1 < stick_x (leftStick (gamepadState c))).

(** [direction] from its reset to just before [normalize]. *)
Definition raw_direction (c : Closure) : Vector3.t :=
  let d0 := Vector3.set (direction c) 0 0 0 in
  let d1 := if goes_forward c then Vector3.setZ d0 (-1) else d0 in
  let d2 := if goes_back c then Vector3.setZ d1 1 else d1 in
  let d3 := if goes_left c then Vector3.setX d2 (-1) else d2 in
  let d4 := if goes_right c then Vector3.setX d3 1 else d3 in
  d4.

Definition animate (f : Frame) (g : Game) : Game :=
  let c0 := env g in
  (* the frame counter *)
  let currentTime := now f in
  let frameCount1 := (frameCount c0 + 1)%Z in
  let fpsUpdateTime1 := fpsUpdateTime c0 + (currentTime - lastTime c0) in
  let refresh := bool_decide (500 <= fpsUpdateTime1) in
  let g1 := if refresh then setFps (round (IZR frameCount1 * 1000 / fpsUpdateTime1)) g else g in
  let frameCount2 := if refresh then 0%Z else frameCount1 in
  let fpsUpdateTime2 := if refresh then 0 else fpsUpdateTime1 in
  let lastTime1 := currentTime in
  (* the gamepad *)
  let c := updateGamepad (gamepad0 f) c0 in
  (* movement *)
  let moving := isMoving c in
  let direction1 := Vector3.normalize (raw_direction c) in
  let forward := Vector3.mk (sin (yaw c)) 0 (cos (yaw c)) in
  let right := Vector3.mk (sin (yaw c + PI / 2)) 0 (cos (yaw c + PI / 2)) in
  let velocity0 := Vector3.set (velocity c) 0 0 0 in
  let velocity1 := Vector3.addScaledVector velocity0 forward (- Vector3.z direction1 * moveSpeed) in
  let velocity2 := Vector3.addScaledVector velocity1 right (Vector3.x direction1 * moveSpeed) in
  let position1 := Vector3.add (camera_position c) velocity2 in
  let rotation1 := Vector3.mk (pitch c) (yaw c) 0 in
  (* the arm *)
  let armSwingSpeed1 := if moving then 0.15 else armSwingSpeed c * 0.9 in
  let armSwing1 := armSwing c + armSwingSpeed1 in
  let armRotation1 :=
    Vector3.mk (sin armSwing1 * 0.3) (Vector3.y (armGroup_rotation c)) (sin (armSwing1 * 0.5) * 0.1) in
  with_env g1
    (mkClosure (keys c) velocity2 direction1 (yaw c) (pitch c) armSwing1 armSwingSpeed1
       (gamepadState c) position1 rotation1 armRotation1 lastTime1 frameCount2 fpsUpdateTime2).

(** The variables as the effect declares them, [t0] being the value of
    [performance.now()] that initialises [lastTime]. *)
Definition initial_closure (t0 : R) : Closure :=
  mkClosure ∅ Vector3.zero Vector3.zero 0 0 0 0
    (mkGamepadState (mkStick 0 0) (mkStick 0 0) (replicate 16 false))
    (Vector3.mk 8 15 8) Vector3.zero Vector3.zero t0 0%Z 0.

(** One run of the effect: the variables are declared afresh and [animate]
    is called once, at [first]. *)
Definition run_effect (t0 : R) (first : Frame) (g : Game) : Game :=
  animate first (with_env g (initial_closure t0)).

(** The component once mounted. *)
Definition mount (t0 : R) (first : Frame) : Game :=
  run_effect t0 first (mkGame 10 0 false 0 (initial_closure t0)).

(** [locked] is the value of [document.pointerLockElement ===
    renderer.domElement].  The effect depends on [isPointerLocked]: when the
    state changes React runs it again, with what it then reads from the host,
    and the handlers of the earlier run are removed.  The frame callback of an
    earlier run is not cancelled, but it works on the variables of that run,
    which no handler reads any more; of the state followed here it can only
    write [fps].  [Page], further down, follows these loops too. *)
Definition handlePointerLockChange (locked : bool) (t0 : R) (first : Frame) (g : Game) : Game :=
  if decide (locked = isPointerLocked g) then g
  else run_effect t0 first (setIsPointerLocked locked g).

Inductive Event : Type :=
| keydown (code : string)
| keyup (code : string)
| mousemove (movementX movementY : R)
| click
| pointerlockchange (locked : bool) (t0 : R) (first : Frame)
| animationFrame (f : Frame).

Definition dispatch (g : Game) (e : Event) : Game :=
  match e with
  | keydown code => handleKeyDown code g
  | keyup code => handleKeyUp code g
  | mousemove dx dy => handleMouseMove dx dy g
  | click => handleClick g
  | pointerlockchange locked t0 first => handlePointerLockChange locked t0 first g
  | animationFrame f => animate f g
  end.

(** The state after a sequence of events, the earliest first. *)
Definition run (g : Game) (events : list Event) : Game := foldl dispatch g events.
End Handlers.

(** ** The swing speed of the arm in binary64

    [armSwingSpeed] is set to 0.15 by a frame that finds the player moving
    and multiplied by 0.9 by every other frame, so that a player who stays
    idle for two minutes brings it down to the subnormal doubles.  [Double]
    follows these two assignments of [animate] on the doubles of the kernel,
    whose product is that of IEEE 754, rounded to the nearest double with
    ties to even, as in JavaScript; a decimal literal stands for the double
    nearest to it, as in JavaScript too. *)

Module Double.
Local Open Scope float_scope.

(** [if (isMoving) { armSwingSpeed = 0.15; } else { armSwingSpeed *= 0.9; }] *)
Definition armSwingSpeed_tick (isMoving : bool) (armSwingSpeed : float) : float :=
  if isMoving then 0.15 else armSwingSpeed * 0.9.

(** [armSwingSpeed] after the frames of which [moving] tells, in order,
    whether they find the player moving. *)
Definition ticks (armSwingSpeed : float) (moving : list bool) : float :=
  foldl (fun s isMoving => armSwingSpeed_tick isMoving s) armSwingSpeed moving.

(** [armSwingSpeed] after [n] frames that find the player idle. *)
Definition idle_ticks (n : nat) (armSwingSpeed : float) : float :=
  Nat.iter n (armSwingSpeed_tick false) armSwingSpeed.

(** The rational number that a finite double is. *)
Definition exact (f : float) : option Q :=
  match Prim2SF f with
  | S754_zero _ => Some 0%Q
  | S754_finite s m e => Some ((if s then -1 else 1) * inject_Z (Z.pos m) * Qpower 2 e)%Q
  | S754_infinity _ | S754_nan => None
  end.

(** The smallest speed that idle frames lead to: five times the smallest
    positive double. *)
Definition floor_speed : float := 0x5p-1074.

(** Each of the next [k] idle frames leaves a speed that is positive and
    smaller than the one it finds. *)
Fixpoint decays (k : nat) (s : float) : bool :=
  match k with
  | O => true
  | S k' =>
      let s' := armSwingSpeed_tick false s in
      (0 <? s') && (s' <? s) && decays k' s'
  end.
End Double.

(** ** Vocabulary of the statements *)

Section Vocabulary.
Local Open Scope R_scope.

(** The variables as [animate] sees them when it decides on movement, that
    is, once [updateGamepad] has run. *)
Definition tick_input (f : Frame) (g : Game) : Closure :=
  updateGamepad (gamepad0 f) (env g).

(** How far the camera is moved between two states. *)
Definition displacement (g g' : Game) : Vector3.t :=
  Vector3.sub (camera_position (env g')) (camera_position (env g)).

(** Forward and right are both asked for. *)
Definition diagonal_input (c : Closure) : bool := goes_forward c && goes_right c.

(** Movement is asked for along exactly one of the two axes. *)
Definition axis_aligned_input (c : Closure) : bool :=
  xorb (goes_forward c || goes_back c) (goes_left c || goes_right c).

(** The components of [direction] just before it is normalised, as the
    four conditions decide them (a later assignment wins). *)
Definition raw_x (c : Closure) : R :=
  if goes_right c then 1 else if goes_left c then -1 else 0.
Definition raw_z (c : Closure) : R :=
  if goes_back c then 1 else if goes_forward c then -1 else 0.

(** Consecutive frames, none of which finds the player moving. *)
Fixpoint idle_frames (g : Game) (fs : list Frame) : Prop :=
  match fs with
  | [] => True
  | f :: fs' => isMoving (tick_input f g) = false /\ idle_frames (animate f g) fs'
  end.

Definition pitch_in_range (g : Game) : Prop :=
  - PI / 2 <= pitch (env g) <= PI / 2.

(** The number of boxes of the meshes of a world. *)
Definition box_count (ms : list Mesh) : nat :=
  list_sum (map (fun m => length (geometry m)) ms).

(** The box that the chunk builder makes for the local column [(x, z)]. *)
Definition column_box (cx cz x z : Z) : Box :=
  mkBox (cx * 12 + x)
        (Zfloor (noise (IZR (cx * 12 + x)) (IZR (cz * 12 + z)) + 8))
        (cz * 12 + z).

(** The value of a decimal numeral, its most significant digit first, and
    the number of its digits. *)
Definition numeral_value (d : Decimal.uint) : Z := Z.of_N (Unsigned.of_lu (Decimal.rev d)).
Definition numeral_size (d : Decimal.uint) : Z := Z.of_N (Unsigned.usize d).

(** The text of the code of a digit key, [n] written in decimal. *)
Definition digit_code (n : Z) : string :=
  ("Digit" +:+ NilZero.string_of_int (Z.to_int n))%string.

(** States and frames used to instantiate the statements: the component
    just mounted with no gamepad, a frame with no gamepad, and the states
    reached with W and D held, with W held, and with W released after one
    frame of walking. *)
Definition sample_frame : Frame := mkFrame 16 None.
Definition sample_start : Game := mount 0 (mkFrame 0 None).
Definition sample_diagonal : Game := run sample_start [keydown "KeyW"; keydown "KeyD"].
Definition sample_forward : Game := run sample_start [keydown "KeyW"].
Definition sample_stopped : Game :=
  run sample_start [keydown "KeyW"; animationFrame sample_frame; keyup "KeyW"].
End Vocabulary.

(** ** The hotbar as the component draws it *)

Record Item : Type := mkItem { item_id : Z; item_name : string; item_icon : string }.

Definition inventory : list Item :=
  [ mkItem 0 "Grass" "🟩"; mkItem 1 "Dirt" "🟫"; mkItem 2 "Stone" "⬜";
    mkItem 3 "Wood" "🟤"; mkItem 4 "Pickaxe" "⛏️"; mkItem 5 "Sword" "🗡️";
    mkItem 6 "Apple" "🍎"; mkItem 7 "Bread" "🍞"; mkItem 8 "Diamond" "💎" ].

(** For each card of [inventory.map], in order, the condition
    [selectedSlot === index] that draws it as the selected one. *)
Definition card_selected (g : Game) : list bool :=
  imap (fun index _ => bool_decide (selectedSlot g = Z.of_nat index)) inventory.

(** [onClick] of the card at [index]: [setSelectedSlot(index)]. *)
Definition handleCardClick (index : nat) (g : Game) : Game :=
  setSelectedSlot (Z.of_nat index) g.

(** What reaches the component: an event of the host, or a click on the card
    at [index]; only the cards that are drawn can be clicked. *)
Inductive Interaction : Type :=
| host_event (e : Event)
| card_click (index : nat).

Definition interact (g : Game) (i : Interaction) : Game :=
  match i with
  | host_event e => dispatch g e
  | card_click index =>
      match inventory !! index with
      | Some _ => handleCardClick index g
      | None => g
      end
  end.

Definition session (g : Game) (interactions : list Interaction) : Game :=
  foldl interact g interactions.

(** ** What the effect registers with the host, and what its cleanup releases

    The body of the effect past its guard, and the function it returns, as
    far as they register and release things: the canvas under the container,
    the listeners, and the request for the next frame that [animate] makes
    on each call.  The run of the effect is [r]; the canvas and the callbacks
    of different runs are different objects. *)

Module Dom.

Inductive Target : Type := window | document | domElement (r : nat).

Inductive Callback : Type :=
| cbKeyDown | cbKeyUp | cbMouseMove | cbClick | cbPointerLockChange | cbResize.

Record Listener : Type := mkListener
  { target : Target; type : string; callback : Callback; run_of : nat }.

#[export] Instance Target_eq_dec : EqDecision Target.
Proof. solve_decision. Defined.
#[export] Instance Callback_eq_dec : EqDecision Callback.
Proof. solve_decision. Defined.
#[export] Instance Listener_eq_dec : EqDecision Listener.
Proof. solve_decision. Defined.

Record Host : Type := mkHost
  { listeners : list Listener;
    (** the canvases under the container, by run *)
    children : list nat;
    (** the runs whose [animate] is requested for the next frame *)
    frame_requests : list nat }.

Definition empty_host : Host := mkHost [] [] [].

(** A listener already registered is not registered twice. *)
Definition addEventListener (l : Listener) (h : Host) : Host :=
  if decide (l ∈ listeners h) then h
  else mkHost (listeners h ++ [l]) (children h) (frame_requests h).

Definition removeEventListener (l : Listener) (h : Host) : Host :=
  mkHost (filter (fun x => x <> l) (listeners h)) (children h) (frame_requests h).

Definition appendChild (c : nat) (h : Host) : Host :=
  mkHost (listeners h) (filter (fun x => x <> c) (children h) ++ [c]) (frame_requests h).

(** [removeChild] raises a NotFoundError, here [None], when the node is not
    a child. *)
Definition removeChild (c : nat) (h : Host) : option Host :=
  if decide (c ∈ children h)
  then Some (mkHost (listeners h) (filter (fun x => x <> c) (children h)) (frame_requests h))
  else None.

Definition requestAnimationFrame (r : nat) (h : Host) : Host :=
  mkHost (listeners h) (children h) (frame_requests h ++ [r]).

(** The listeners of the run [r], in the order in which the effect adds
    them. *)
Definition effect_listeners (r : nat) : list Listener :=
  [ mkListener window "keydown" cbKeyDown r;
    mkListener window "keyup" cbKeyUp r;
    mkListener (domElement r) "mousemove" cbMouseMove r;
    mkListener (domElement r) "click" cbClick r;
    mkListener document "pointerlockchange" cbPointerLockChange r;
    mkListener window "resize" cbResize r ].

(** The effect: the canvas is appended, five listeners are added, [animate]
    is called, which requests the next frame, and the resize listener is
    added. *)
Definition effect_setup (r : nat) (h : Host) : Host :=
  let h := appendChild r h in
  let h := addEventListener (mkListener window "keydown" cbKeyDown r) h in
  let h := addEventListener (mkListener window "keyup" cbKeyUp r) h in
  let h := addEventListener (mkListener (domElement r) "mousemove" cbMouseMove r) h in
  let h := addEventListener (mkListener (domElement r) "click" cbClick r) h in
  let h := addEventListener (mkListener document "pointerlockchange" cbPointerLockChange r) h in
  let h := requestAnimationFrame r h in
  addEventListener (mkListener window "resize" cbResize r) h.

(** The function the effect returns.  [current] tells whether
    [canvasRef.current] is set when it runs: it is when the effect runs
    again, and it is null once React has detached the ref, as it has when the
    component is unmounted; [canvasRef.current?.removeChild] then does
    nothing. *)
Definition effect_cleanup (current : bool) (r : nat) (h : Host) : option Host :=
  let h := removeEventListener (mkListener window "keydown" cbKeyDown r) h in
  let h := removeEventListener (mkListener window "keyup" cbKeyUp r) h in
  let h := removeEventListener (mkListener window "resize" cbResize r) h in
  let h := removeEventListener (mkListener (domElement r) "mousemove" cbMouseMove r) h in
  let h := removeEventListener (mkListener (domElement r) "click" cbClick r) h in
  let h := removeEventListener (mkListener document "pointerlockchange" cbPointerLockChange r) h in
  if current then removeChild r h else Some h.

(** The host calls the [animate] that the run [r] has requested: the request
    is used up, and [animate] starts by requesting the next frame. *)
Definition frame (r : nat) (h : Host) : Host :=
  if decide (r ∈ frame_requests h)
  then requestAnimationFrame r
         (mkHost (listeners h) (children h) (list_difference (frame_requests h) [r]))
  else h.

(** The effect run and cleaned up [n] times over, as when the pointer lock
    changes [n] times, [canvasRef.current] being set, with frames of the
    live run in between. *)
Fixpoint remounts (n : nat) (h : Host) : option Host :=
  match n with
  | O => Some h
  | S n' =>
      match remounts n' h with
      | Some h' => effect_cleanup true n' (frame n' (effect_setup n' h'))
      | None => None
      end
  end.

(** The run [r] has left no listener and no canvas with the host. *)
Definition released (r : nat) (h : Host) : Prop :=
  (forall l, l ∈ listeners h -> run_of l <> r) /\ r ∉ children h.
End Dom.

(** ** The frame loops of earlier runs

    [animate] requests its next frame on every call and the function that
    the effect returns cancels no request, so the loop of a run goes on
    after the run is cleaned up.  It works on the variables of its own run,
    which no handler writes any more, and on the state of the component
    through [setFps].  [stale] holds the variables of the earlier runs, the
    earliest first. *)

Record Page : Type := mkPage { live : Game; stale : list Closure }.

Inductive PageEvent : Type :=
| to_live (e : Event)
| stale_frame (i : nat) (f : Frame).

Definition page_dispatch (p : Page) (pe : PageEvent) : Page :=
  match pe with
  | to_live e =>
      let left_over :=
        match e with
        | pointerlockchange locked _ _ =>
            if decide (locked = isPointerLocked (live p)) then [] else [env (live p)]
        | _ => []
        end in
      mkPage (dispatch (live p) e) (stale p ++ left_over)
  | stale_frame i f =>
      match stale p !! i with
      | Some c =>
          let g' := animate f (with_env (live p) c) in
          mkPage (setFps (fps g') (live p)) (<[i := env g']> (stale p))
      | None => p
      end
  end.

Definition page_run (p : Page) (events : list PageEvent) : Page :=
  foldl page_dispatch p events.

(** The page once the component is mounted. *)
Definition page_mount (t0 : R) (first : Frame) : Page := mkPage (mount t0 first) [].

(** The events of a list that go to the live run. *)
Definition live_events (events : list PageEvent) : list Event :=
  omap (fun pe => match pe with to_live e => Some e | stale_frame _ _ => None end) events.

(** ** Vocabulary of the further statements *)

Section FurtherVocabulary.
Local Open Scope R_scope.

(** The decimal writing of an integer. *)
Definition decimal (n : Z) : string := NilZero.string_of_int (Z.to_int n).

(** Every character of the string is white space for [parseInt]. *)
Fixpoint all_white_space (s : string) : bool :=
  match s with
  | EmptyString => true
  | String c s' => JsString.is_white_space c && all_white_space s'
  end.

(** What follows the decimal writing of [n] does not continue the numeral:
    it does not start with a decimal digit, nor, after a lone zero, with the
    x of a hexadecimal prefix. *)
Definition ends_numeral (n : Z) (rest : string) : bool :=
  match rest with
  | EmptyString => true
  | String c _ =>
      match JsString.digit_value 10 c with
      | Some _ => false
      | None => negb ((n =? 0)%Z && (Ascii.eqb c "x" || Ascii.eqb c "X"))
      end
  end.

(** The names that a plain object inherits from [Object.prototype]: read
    under one of them, an object with no entry of its own gives what it
    inherits, and a write under [__proto__] makes no entry.  No key has one
    of them for its code. *)
Definition object_prototype_names : list string :=
  [ "__proto__"; "constructor"; "hasOwnProperty"; "isPrototypeOf";
    "propertyIsEnumerable"; "toLocaleString"; "toString"; "valueOf";
    "__defineGetter__"; "__defineSetter__"; "__lookupGetter__";
    "__lookupSetter__" ]%string.

Definition inherited_name (name : string) : bool :=
  bool_decide (name ∈ object_prototype_names).

(** Whether [code] is held once the key events of a list have been handled,
    given whether it was held before: its latest key event decides. *)
Definition key_after (code : string) (before : bool) (events : list Event) : bool :=
  foldl (fun b e =>
           match e with
           | keydown c => if decide (c = code) then true else b
           | keyup c => if decide (c = code) then false else b
           | _ => b
           end) before events.

(** The events that cannot make React run the effect again. *)
Definition keeps_effect (e : Event) : bool :=
  match e with
  | pointerlockchange _ _ _ => false
  | _ => true
  end.

(** A stick component as [updateGamepad] stores it: zero, or beyond the
    dead zone. *)
Definition clear_of_dead_zone (v : R) : Prop := v = 0 \/ 0.1 < Rabs v.

Definition sticks_clear (c : Closure) : Prop :=
  clear_of_dead_zone (stick_x (leftStick (gamepadState c))) /\
  clear_of_dead_zone (stick_y (leftStick (gamepadState c))) /\
  clear_of_dead_zone (stick_x (rightStick (gamepadState c))) /\
  clear_of_dead_zone (stick_y (rightStick (gamepadState c))).

(** The first four axes of a gamepad, those the program reads, are all
    within the dead zone. *)
Definition at_rest (gp : Gamepad) : Prop :=
  Forall (fun a => Rabs a <= 0.1) (take 4 (axes gp)).

(** The sum of a list of numbers. *)
Definition Rsum (l : list R) : R := foldr Rplus 0 l.

(** Mouse moves by the given pairs of [movementX] and [movementY]. *)
Definition mouse_moves (ds : list (R * R)) : list Event :=
  (fun d => mousemove (fst d) (snd d)) <$> ds.

(** The step of the camera in a frame that decides on movement in the
    closure [c]: [moveSpeed] along the direction asked for, turned by the
    yaw; no step when no direction is asked for. *)
Definition step (c : Closure) : Vector3.t :=
  let k := moveSpeed / or_number (sqrt (raw_x c * raw_x c + raw_z c * raw_z c)) 1 in
  Vector3.mk (k * (raw_x c * cos (yaw c) - raw_z c * sin (yaw c)))
             0
             (k * (- raw_x c * sin (yaw c) - raw_z c * cos (yaw c))).

(** Consecutive frames, each of which finds the player moving. *)
Fixpoint moving_frames (g : Game) (fs : list Frame) : Prop :=
  match fs with
  | [] => True
  | f :: fs' => isMoving (tick_input f g) = true /\ moving_frames (animate f g) fs'
  end.

(** The time that the frame counter has accumulated once the frame [f] is
    added to it. *)
Definition window_elapsed (g : Game) (f : Frame) : R :=
  fpsUpdateTime (env g) + (now f - lastTime (env g)).

(** The state of the component before its effect has run. *)
Definition sample_initial : Game := mkGame 10 0 false 0 (initial_closure 0).

(** Two states of the component that differ at most in the published
    rate. *)
Definition same_but_fps (g g' : Game) : Prop :=
  env g = env g' /\ health g = health g' /\
  selectedSlot g = selectedSlot g' /\ isPointerLocked g = isPointerLocked g'.

(** The time that the frame counter of the closure [c] has accumulated once
    the frame [f] is added to it. *)
Definition closure_elapsed (c : Closure) (f : Frame) : R :=
  fpsUpdateTime c + (now f - lastTime c).

(** A page on which the loop of one earlier run is left. *)
Definition sample_page : Page := mkPage sample_initial [initial_closure 0].

(** The boxes of all the geometries built for a chunk, and for the whole
    world, in the order in which they are built. *)
Definition chunk_boxes (cx cz : Z) : list Box := concat (chunk_geometries cx cz).
Definition world_boxes : list Box := concat world_blocks.

(** The box stands on its column at the height of the terrain there. *)
Definition on_terrain (b : Box) : Prop :=
  centreY b = Zfloor (noise (IZR (centreX b)) (IZR (centreZ b)) + 8).
End FurtherVocabulary.

(** * Properties *)

(** ** The height field *)

Section HeightField.
Local Open Scope R_scope.

Lemma sin_cos_product_bounds (a b : R) : -1 <= sin a * cos b <= 1.
Proof.
  destruct (SIN_bound a) as [Hs1 Hs2], (COS_bound b) as [Hc1 Hc2].
  split; nra.
Qed.

Lemma noise_bounds (x z : R) : -5.25 <= noise x z <= 5.25.
Proof.
  unfold noise; cbv zeta.
  pose proof (sin_cos_product_bounds (x * 0.1) (z * 0.1)).
  pose proof (sin_cos_product_bounds (x * 0.1 * 2) (z * 0.1 * 2)).
  pose proof (sin_cos_product_bounds (x * 0.1 * 4) (z * 0.1 * 4)).
  lra.
Qed.

(** The elevation of a column stays between 2 and 13. *)
Lemma elevation_bounds (x z : R) : (2 <= Zfloor (noise x z + 8) <= 13)%Z.
Proof.
  pose proof (noise_bounds x z) as [Hlo Hhi].
  split.
  - apply Zfloor_lub. lra.
  - pose proof (Zfloor_bound (noise x z + 8)) as [Hf _].
    enough (Zfloor (noise x z + 8) < 14)%Z by lia.
    apply lt_IZR. lra.
Qed.
End HeightField.

(** C1.  The height field is a function of its two arguments alone, so that
    evaluating it again at the same integer pair gives the same value, and its
    value at every integer pair lies between -5.25 and 5.25. *)
Theorem noise_deterministic_and_bounded :
  forall x z : Z,
    (forall x' z' : Z, x' = x -> z' = z -> noise (IZR x') (IZR z') = noise (IZR x) (IZR z)) /\
    (-5.25 <= noise (IZR x) (IZR z) <= 5.25)%R.
Proof.
  intros x z. split.
  - intros x' z' -> ->. reflexivity.
  - apply noise_bounds.
Qed.

(** ** Chunks and the world *)

Section Chunks.

Lemma for_range_0_12 : for_range 0 CHUNK_SIZE = [0; 1; 2; 3; 4; 5; 6; 7; 8; 9; 10; 11]%Z.
Proof. reflexivity. Qed.

Lemma for_range_render : for_range (- RENDER_DISTANCE) RENDER_DISTANCE = [-3; -2; -1; 0; 1; 2]%Z.
Proof. reflexivity. Qed.

Lemma lookup_for_range (lo hi : Z) (i : nat) :
  (lo + Z.of_nat i < hi)%Z -> for_range lo hi !! i = Some (lo + Z.of_nat i)%Z.
Proof. intros H. unfold for_range. apply lookup_seqZ_lt. lia. Qed.

Lemma length_for_range (lo hi : Z) : length (for_range lo hi) = Z.to_nat (hi - lo).
Proof. apply length_seqZ. Qed.

(** Reading a list made of rows of one length [n]. *)
Lemma lookup_flat_map_rows {A B : Type} (f : A -> list B) (n : nat) (l : list A) :
  (forall a, length (f a) = n) ->
  forall (i j : nat) (a : A),
    l !! i = Some a -> (j < n)%nat -> flat_map f l !! (i * n + j)%nat = f a !! j.
Proof.
  intros Hlen. induction l as [|a0 l IH]; intros i j a Hi Hj.
  - rewrite lookup_nil in Hi. discriminate.
  - destruct i as [|i]; simpl in *.
    + injection Hi as ->. apply lookup_app_l. rewrite Hlen. exact Hj.
    + rewrite lookup_app_r by (rewrite Hlen; lia).
      rewrite Hlen. replace (n + i * n + j - n)%nat with (i * n + j)%nat by lia.
      now apply IH.
Qed.

Lemma column_geometry_box (cx cz x z : Z) :
  column_geometry cx cz x z = [column_box cx cz x z].
Proof.
  unfold column_geometry, column_box, blockGeometry, Geometry.clone, Geometry.BoxGeometry.
  cbn [Geometry.translate map centreX centreY centreZ]. unfold CHUNK_SIZE.
  do 2 f_equal; lia.
Qed.

Lemma length_chunk_geometries (cx cz : Z) : length (chunk_geometries cx cz) = 144%nat.
Proof.
  unfold chunk_geometries.
  rewrite (flat_map_constant_length (c := 12)).
  - rewrite length_for_range. reflexivity.
  - intros x _. rewrite length_map, length_for_range. reflexivity.
Qed.

Lemma lookup_chunk_geometries (cx cz x z : Z) :
  (0 <= x < 12)%Z -> (0 <= z < 12)%Z ->
  chunk_geometries cx cz !! Z.to_nat (x * 12 + z) = Some [column_box cx cz x z].
Proof.
  intros Hx Hz. unfold chunk_geometries.
  replace (Z.to_nat (x * 12 + z)) with (Z.to_nat x * 12 + Z.to_nat z)%nat by lia.
  rewrite (lookup_flat_map_rows _ 12 _) with (a := x).
  - rewrite list_lookup_fmap, (lookup_for_range 0 CHUNK_SIZE) by (unfold CHUNK_SIZE; lia).
    simpl. rewrite column_geometry_box.
    now replace (0 + Z.of_nat (Z.to_nat z))%Z with z by lia.
  - intros a. rewrite length_map, length_for_range. reflexivity.
  - rewrite lookup_for_range by (unfold CHUNK_SIZE; lia). f_equal. lia.
  - lia.
Qed.

Lemma chunk_geometries_boxes (cx cz : Z) :
  Forall (fun g => length g = 1%nat) (chunk_geometries cx cz).
Proof.
  unfold chunk_geometries. apply Forall_flat_map, Forall_forall. intros x _.
  apply Forall_map, Forall_forall. intros z _. now rewrite column_geometry_box.
Qed.

Lemma length_concat_boxes (gs : list BufferGeometry) :
  Forall (fun g => length g = 1%nat) gs -> length (concat gs) = length gs.
Proof.
  induction 1 as [|g gs Hg _ IH]; simpl; [reflexivity|].
  rewrite length_app, Hg, IH. reflexivity.
Qed.

(** What the builder returns, by the shape of the namespace. *)
Lemma createMergedChunk_merged (THREE : Namespace) (merge : list BufferGeometry -> BufferGeometry) (cx cz : Z) :
  BufferGeometryUtils THREE ≫= mergeGeometries = Some merge ->
  createMergedChunk THREE cx cz = merge (chunk_geometries cx cz).
Proof.
  intros H. unfold createMergedChunk. cbv zeta. rewrite H.
  pose proof (length_chunk_geometries cx cz) as Hl.
  destruct (chunk_geometries cx cz); [discriminate|reflexivity].
Qed.

Lemma createMergedChunk_fallback (THREE : Namespace) (cx cz : Z) :
  BufferGeometryUtils THREE ≫= mergeGeometries = None ->
  createMergedChunk THREE cx cz = column_geometry cx cz 0 0.
Proof.
  intros H. unfold createMergedChunk. cbv zeta. rewrite H.
  unfold chunk_geometries. rewrite for_range_0_12. reflexivity.
Qed.

Lemma length_chunk_coordinates : length chunk_coordinates = 36%nat.
Proof. reflexivity. Qed.

Lemma chunks_by_coordinates (THREE : Namespace) :
  chunks THREE = map (fun c => mkMesh (createMergedChunk THREE (fst c) (snd c)) grass) chunk_coordinates.
Proof. unfold chunks, chunk_coordinates. rewrite for_range_render. reflexivity. Qed.

Lemma length_chunks (THREE : Namespace) : length (chunks THREE) = 36%nat.
Proof. rewrite chunks_by_coordinates. now rewrite length_map, length_chunk_coordinates. Qed.

Lemma length_world_blocks : length world_blocks = (36 * 144)%nat.
Proof.
  unfold world_blocks.
  rewrite (flat_map_constant_length (c := 144)).
  - now rewrite length_chunk_coordinates.
  - intros c _. apply length_chunk_geometries.
Qed.

Lemma elem_of_chunk_coordinates (cx cz : Z) :
  (cx, cz) ∈ chunk_coordinates <-> (-3 <= cx < 3)%Z /\ (-3 <= cz < 3)%Z.
Proof.
  unfold chunk_coordinates. rewrite list_elem_of_In, in_flat_map. split.
  - intros (a & Ha & Hin). apply in_map_iff in Hin as (b & [= <- <-] & Hb).
    apply list_elem_of_In, elem_of_seqZ in Ha, Hb. unfold RENDER_DISTANCE in *. lia.
  - intros [Hx Hz]. exists cx. split.
    + apply list_elem_of_In, elem_of_seqZ. unfold RENDER_DISTANCE. lia.
    + apply in_map, list_elem_of_In, elem_of_seqZ. unfold RENDER_DISTANCE. lia.
Qed.

Lemma box_count_constant (n : nat) (ms : list Mesh) :
  Forall (fun m => length (geometry m) = n) ms -> box_count ms = (length ms * n)%nat.
Proof.
  unfold box_count. induction 1 as [|m ms Hm _ IH]; simpl; [reflexivity|].
  rewrite Hm, IH. reflexivity.
Qed.

Lemma length_merged_chunk (cx cz : Z) :
  length (createMergedChunk THREE_with_utils cx cz) = 144%nat.
Proof.
  rewrite (createMergedChunk_merged _ Geometry.mergeGeometries) by reflexivity.
  unfold Geometry.mergeGeometries.
  rewrite length_concat_boxes by apply chunk_geometries_boxes.
  apply length_chunk_geometries.
Qed.

Lemma box_count_merged_world : box_count (chunks THREE_with_utils) = (36 * 144)%nat.
Proof.
  rewrite (box_count_constant 144), length_chunks; [reflexivity|].
  rewrite chunks_by_coordinates. apply Forall_map, Forall_forall. intros c _.
  apply length_merged_chunk.
Qed.

Lemma box_count_fallback_world (THREE : Namespace) :
  BufferGeometryUtils THREE ≫= mergeGeometries = None ->
  box_count (chunks THREE) = 36%nat.
Proof.
  intros H. rewrite (box_count_constant 1), length_chunks; [reflexivity|].
  rewrite chunks_by_coordinates. apply Forall_map, Forall_forall. intros c _.
  cbn [geometry]. rewrite createMergedChunk_fallback by exact H.
  now rewrite column_geometry_box.
Qed.
(** Reading a merge of geometries of one box each. *)
Lemma lookup_concat_boxes (gs : list BufferGeometry) (i : nat) (b : Box) :
  Forall (fun g => length g = 1%nat) gs -> gs !! i = Some [b] -> concat gs !! i = Some b.
Proof.
  intros Hgs. revert i. induction Hgs as [|g gs Hg _ IH]; intros i Hi.
  - rewrite lookup_nil in Hi. discriminate.
  - destruct g as [|b0 [|b1 g]]; try discriminate Hg.
    destruct i as [|i]; [now injection Hi as ->|]. cbn. now apply IH.
Qed.

Lemma lookup_merged_chunk (cx cz x z : Z) :
  (0 <= x < 12)%Z -> (0 <= z < 12)%Z ->
  createMergedChunk THREE_with_utils cx cz !! Z.to_nat (x * 12 + z) =
    Some (column_box cx cz x z).
Proof.
  intros Hx Hz.
  rewrite (createMergedChunk_merged _ Geometry.mergeGeometries) by reflexivity.
  unfold Geometry.mergeGeometries.
  apply lookup_concat_boxes; [apply chunk_geometries_boxes|].
  now apply lookup_chunk_geometries.
Qed.

Lemma fallback_chunk (cx cz : Z) :
  createMergedChunk THREE_core cx cz =
    [mkBox (cx * 12) (Zfloor (noise (IZR (cx * 12)) (IZR (cz * 12)) + 8)) (cz * 12)].
Proof.
  rewrite createMergedChunk_fallback by reflexivity.
  rewrite column_geometry_box. unfold column_box.
  now replace (cx * 12 + 0)%Z with (cx * 12)%Z by lia;
      replace (cz * 12 + 0)%Z with (cz * 12)%Z by lia.
Qed.
End Chunks.

(** C2.  For every chunk coordinate the builder makes 144 geometries, each
    one unit cube, the one of the local column [(x, z)] centred at
    [(cx * 12 + x, floor (noise worldX worldZ + 8), cz * 12 + z)].  What it
    returns depends on the namespace: with [mergeGeometries] it is the merge
    of the 144 geometries, which for three's [mergeGeometries] is the
    geometry of these 144 cubes, each at its place and in the order of the
    loops; without it, as in the namespace that the import of the package
    gives, it is the cube of the local column [(0, 0)] alone.  The world loop
    visits exactly the coordinates with [cx] and [cz] in [[-3, 3)] and makes
    one mesh, of the material grass, for each: 36 meshes, of
    36 * 144 = 5184 cubes with [mergeGeometries] and of 36 cubes without. *)
Theorem chunk_and_world_block_counts :
  (forall cx cz : Z,
      length (chunk_geometries cx cz) = 144%nat /\
      (forall x z : Z, (0 <= x < 12)%Z -> (0 <= z < 12)%Z ->
         chunk_geometries cx cz !! Z.to_nat (x * 12 + z) =
           Some [mkBox (cx * 12 + x)
                       (Zfloor (noise (IZR (cx * 12 + x)) (IZR (cz * 12 + z)) + 8))
                       (cz * 12 + z)]) /\
      (forall THREE : Namespace,
         createMergedChunk THREE cx cz =
           match BufferGeometryUtils THREE ≫= mergeGeometries with
           | Some merge => merge (chunk_geometries cx cz)
           | None =>
               [mkBox (cx * 12) (Zfloor (noise (IZR (cx * 12)) (IZR (cz * 12)) + 8)) (cz * 12)]
           end) /\
      length (createMergedChunk THREE_with_utils cx cz) = 144%nat /\
      (forall x z : Z, (0 <= x < 12)%Z -> (0 <= z < 12)%Z ->
         createMergedChunk THREE_with_utils cx cz !! Z.to_nat (x * 12 + z) =
           Some (mkBox (cx * 12 + x)
                       (Zfloor (noise (IZR (cx * 12 + x)) (IZR (cz * 12 + z)) + 8))
                       (cz * 12 + z))) /\
      createMergedChunk THREE_core cx cz =
        [mkBox (cx * 12) (Zfloor (noise (IZR (cx * 12)) (IZR (cz * 12)) + 8)) (cz * 12)]) /\
  (forall cx cz : Z, (cx, cz) ∈ chunk_coordinates <-> (-3 <= cx < 3)%Z /\ (-3 <= cz < 3)%Z) /\
  (forall THREE : Namespace,
      chunks THREE =
        map (fun c => mkMesh (createMergedChunk THREE (fst c) (snd c)) grass) chunk_coordinates /\
      length (chunks THREE) = 36%nat) /\
  Z.of_nat (length world_blocks) = 5184%Z /\
  Z.of_nat (box_count (chunks THREE_with_utils)) = 5184%Z /\
  box_count (chunks THREE_core) = 36%nat.
Proof.
  split; [|split; [|split; [|split; [|split]]]].
  - intros cx cz. split; [|split; [|split; [|split; [|split]]]].
    + apply length_chunk_geometries.
    + intros x z Hx Hz. now apply lookup_chunk_geometries.
    + intros THREE. destruct (BufferGeometryUtils THREE ≫= mergeGeometries) as [merge|] eqn:E.
      * now apply createMergedChunk_merged.
      * rewrite createMergedChunk_fallback by exact E.
        rewrite column_geometry_box. unfold column_box.
        now replace (cx * 12 + 0)%Z with (cx * 12)%Z by lia;
            replace (cz * 12 + 0)%Z with (cz * 12)%Z by lia.
    + apply length_merged_chunk.
    + intros x z Hx Hz. now apply lookup_merged_chunk.
    + apply fallback_chunk.
  - apply elem_of_chunk_coordinates.
  - intros THREE. split; [apply chunks_by_coordinates|apply length_chunks].
  - now rewrite length_world_blocks.
  - now rewrite box_count_merged_world.
  - now apply box_count_fallback_world.
Qed.

(** With the namespace that the import gives, a chunk is not a geometry of
    144 cubes and the world is not one of 5184. *)
Lemma chunk_and_world_block_counts_counterexample :
  length (createMergedChunk THREE_core 0 0) <> 144%nat /\
  Z.of_nat (box_count (chunks THREE_core)) <> 5184%Z.
Proof.
  split.
  - rewrite fallback_chunk. discriminate.
  - rewrite box_count_fallback_world by reflexivity. discriminate.
Qed.

(** C9.  When the namespace offers no [mergeGeometries], the builder still
    returns a geometry for every chunk coordinate: the first element of
    [geometries], which is the cube of the local column [(0, 0)]; and the world
    loop still fills [chunks] with 36 meshes, of one cube each. *)
Theorem merge_fallback_first_block (THREE : Namespace) :
  BufferGeometryUtils THREE ≫= mergeGeometries = None ->
  (forall cx cz : Z,
      chunk_geometries cx cz !! 0%nat = Some (createMergedChunk THREE cx cz) /\
      createMergedChunk THREE cx cz =
        [mkBox (cx * 12) (Zfloor (noise (IZR (cx * 12)) (IZR (cz * 12)) + 8)) (cz * 12)]) /\
  length (chunks THREE) = 36%nat /\
  box_count (chunks THREE) = 36%nat.
Proof.
  intros H. split; [|split].
  - intros cx cz. rewrite createMergedChunk_fallback by exact H. split.
    + unfold chunk_geometries. rewrite for_range_0_12. reflexivity.
    + rewrite column_geometry_box. unfold column_box.
      now replace (cx * 12 + 0)%Z with (cx * 12)%Z by lia;
          replace (cz * 12 + 0)%Z with (cz * 12)%Z by lia.
  - apply length_chunks.
  - now apply box_count_fallback_world.
Qed.

Lemma merge_fallback_first_block_witness :
  (forall cx cz : Z,
      chunk_geometries cx cz !! 0%nat = Some (createMergedChunk THREE_core cx cz) /\
      createMergedChunk THREE_core cx cz =
        [mkBox (cx * 12) (Zfloor (noise (IZR (cx * 12)) (IZR (cz * 12)) + 8)) (cz * 12)]) /\
  length (chunks THREE_core) = 36%nat /\
  box_count (chunks THREE_core) = 36%nat.
Proof. apply (merge_fallback_first_block THREE_core). reflexivity. Defined.

(** ** Looking around *)

Section Look.
Local Open Scope R_scope.

Lemma clamp_in_range (p : R) :
  - PI / 2 <= Rmax (- PI / 2) (Rmin (PI / 2) p) <= PI / 2.
Proof.
  pose proof PI_RGT_0 as Hpi.
  unfold Rmax, Rmin.
  destruct (Rle_dec (PI / 2) p); destruct (Rle_dec _ _); lra.
Qed.

Lemma handleMouseMove_locked (dx dy : R) (g : Game) :
  isPointerLocked g = true ->
  handleMouseMove dx dy g =
    with_env g (with_look (env g) (yaw (env g) - dx * 0.002)
                  (Rmax (- PI / 2) (Rmin (PI / 2) (pitch (env g) - dy * 0.002)))).
Proof. intros H. unfold handleMouseMove. now rewrite H. Qed.

Lemma handleMouseMove_unlocked (dx dy : R) (g : Game) :
  isPointerLocked g = false -> handleMouseMove dx dy g = g.
Proof. intros H. unfold handleMouseMove. now rewrite H. Qed.

Lemma pitch_handleMouseMove (dx dy : R) (g : Game) :
  pitch_in_range g -> pitch_in_range (handleMouseMove dx dy g).
Proof.
  intros Hg. destruct (isPointerLocked g) eqn:Hl.
  - rewrite handleMouseMove_locked by exact Hl. apply clamp_in_range.
  - now rewrite handleMouseMove_unlocked.
Qed.

Lemma pitch_updateGamepad_present (gp : Gamepad) (c : Closure) :
  - PI / 2 <= pitch (updateGamepad (Some gp) c) <= PI / 2.
Proof. apply clamp_in_range. Qed.

Lemma pitch_updateGamepad (gamepad : option Gamepad) (c : Closure) :
  - PI / 2 <= pitch c <= PI / 2 ->
  - PI / 2 <= pitch (updateGamepad gamepad c) <= PI / 2.
Proof.
  intros Hc. destruct gamepad as [gp|]; [apply pitch_updateGamepad_present|exact Hc].
Qed.

Lemma pitch_animate (f : Frame) (g : Game) :
  pitch (env (animate f g)) = pitch (updateGamepad (gamepad0 f) (env g)).
Proof. reflexivity. Qed.

Lemma yaw_animate (f : Frame) (g : Game) :
  yaw (env (animate f g)) = yaw (updateGamepad (gamepad0 f) (env g)).
Proof. reflexivity. Qed.

Lemma pitch_in_range_animate (f : Frame) (g : Game) :
  pitch_in_range g -> pitch_in_range (animate f g).
Proof. unfold pitch_in_range. rewrite pitch_animate. apply pitch_updateGamepad. Qed.

Lemma pitch_in_range_run_effect (t0 : R) (first : Frame) (g : Game) :
  pitch_in_range (run_effect t0 first g).
Proof.
  apply pitch_in_range_animate. unfold pitch_in_range. cbn.
  pose proof PI_RGT_0. lra.
Qed.

Lemma pitch_in_range_keys (g : Game) (code : string) :
  pitch (env (handleKeyDown code g)) = pitch (env g) /\
  pitch (env (handleKeyUp code g)) = pitch (env g).
Proof.
  split; [|reflexivity]. unfold handleKeyDown.
  destruct (JsString.startsWith code "Digit"); [|reflexivity].
  destruct (_ <$> JsString.parseInt _) as [s|]; [|reflexivity].
  destruct (_ && _); reflexivity.
Qed.

Lemma pitch_in_range_dispatch (g : Game) (e : Event) :
  pitch_in_range g -> pitch_in_range (dispatch g e).
Proof.
  intros Hg. destruct e as [code|code|dx dy| |locked t0 first|f]; cbn [dispatch].
  - unfold pitch_in_range. now rewrite (proj1 (pitch_in_range_keys g code)).
  - exact Hg.
  - now apply pitch_handleMouseMove.
  - unfold handleClick. now destruct (negb _).
  - unfold handlePointerLockChange. destruct (decide _); [exact Hg|].
    apply pitch_in_range_run_effect.
  - now apply pitch_in_range_animate.
Qed.

Lemma pitch_in_range_run (events : list Event) (g : Game) :
  pitch_in_range g -> pitch_in_range (run g events).
Proof.
  revert g. induction events as [|e events IH]; intros g Hg; [exact Hg|].
  cbn. apply IH, pitch_in_range_dispatch, Hg.
Qed.
End Look.

(** C3.  Each of the two operations that write the pitch leaves it within
    [-PI/2, PI/2] whatever it was before and whatever the delta is: a mouse
    move while the pointer is locked, and a gamepad poll.  Hence the pitch is
    within these bounds after every sequence of events, from the mounting of
    the component on. *)
Theorem pitch_always_clamped :
  (forall (g : Game) (movementX movementY : R),
      isPointerLocked g = true -> pitch_in_range (handleMouseMove movementX movementY g)) /\
  (forall (c : Closure) (gp : Gamepad),
      (- PI / 2 <= pitch (updateGamepad (Some gp) c) <= PI / 2)%R) /\
  (forall (t0 : R) (first : Frame) (events : list Event),
      pitch_in_range (run (mount t0 first) events)).
Proof.
  split; [|split].
  - intros g dx dy Hl. rewrite handleMouseMove_locked by exact Hl. apply clamp_in_range.
  - intros c gp. apply pitch_updateGamepad_present.
  - intros t0 first events. apply pitch_in_range_run, pitch_in_range_run_effect.
Qed.

(** C5.  A mouse move changes nothing, neither the yaw nor the pitch, while
    the pointer is not locked; while it is locked, a move of [movementX]
    changes the yaw by exactly [- movementX * 0.002]. *)
Theorem mouse_look_gated (g : Game) (movementX movementY : R) :
  let g' := handleMouseMove movementX movementY g in
  if isPointerLocked g
  then (yaw (env g') - yaw (env g) = - movementX * 0.002)%R
  else g' = g /\ (yaw (env g') - yaw (env g) = 0)%R /\ (pitch (env g') - pitch (env g) = 0)%R.
Proof.
  cbv zeta. destruct (isPointerLocked g) eqn:Hl.
  - rewrite handleMouseMove_locked by exact Hl. cbn. lra.
  - rewrite handleMouseMove_unlocked by exact Hl. repeat split; lra.
Qed.

Section Altitude.
Local Open Scope R_scope.

Lemma animate_altitude (f : Frame) (g : Game) :
  Vector3.y (velocity (env (animate f g))) = 0 /\
  Vector3.y (camera_position (env (animate f g))) = Vector3.y (camera_position (env g)).
Proof.
  assert (Hpos : camera_position (updateGamepad (gamepad0 f) (env g)) = camera_position (env g))
    by (destruct (gamepad0 f); reflexivity).
  cbn. rewrite Hpos. split; lra.
Qed.

Lemma camera_position_keys (g : Game) (code : string) :
  camera_position (env (handleKeyDown code g)) = camera_position (env g).
Proof.
  unfold handleKeyDown.
  destruct (JsString.startsWith code "Digit"); [|reflexivity].
  destruct (_ <$> JsString.parseInt _) as [s|]; [|reflexivity].
  destruct (_ && _); reflexivity.
Qed.

Lemma altitude_dispatch (g : Game) (e : Event) :
  Vector3.y (camera_position (env g)) = 15 ->
  Vector3.y (camera_position (env (dispatch g e))) = 15.
Proof.
  intros Hg. destruct e as [code|code|dx dy| |locked t0 first|f]; cbn [dispatch].
  - now rewrite camera_position_keys.
  - exact Hg.
  - unfold handleMouseMove. now destruct (negb _).
  - unfold handleClick. now destruct (negb _).
  - unfold handlePointerLockChange, run_effect. destruct (decide _); [exact Hg|].
    now rewrite (proj2 (animate_altitude _ _)).
  - now rewrite (proj2 (animate_altitude _ _)).
Qed.

Lemma altitude_run (events : list Event) (g : Game) :
  Vector3.y (camera_position (env g)) = 15 ->
  Vector3.y (camera_position (env (run g events))) = 15.
Proof.
  revert g. induction events as [|e events IH]; intros g Hg; [exact Hg|].
  cbn. apply IH, altitude_dispatch, Hg.
Qed.
End Altitude.

(** C6.  A frame never changes the height of the camera: whatever the state
    and whatever the frame reads, the velocity it computes has a zero [y], and
    so has the displacement of the camera.  The camera therefore stays at the
    height 15 where every run of the effect puts it. *)
Theorem tick_keeps_altitude :
  (forall (f : Frame) (g : Game),
      Vector3.y (velocity (env (animate f g))) = 0%R /\
      Vector3.y (displacement g (animate f g)) = 0%R /\
      Vector3.y (camera_position (env (animate f g))) = Vector3.y (camera_position (env g))) /\
  (forall (t0 : R) (first : Frame) (events : list Event),
      Vector3.y (camera_position (env (run (mount t0 first) events))) = 15%R).
Proof.
  split.
  - intros f g. destruct (animate_altitude f g) as [Hv Hp].
    split; [exact Hv|split; [|exact Hp]].
    unfold displacement. cbn [Vector3.sub Vector3.y]. rewrite Hp. lra.
  - intros t0 first events. apply altitude_run.
    unfold mount, run_effect. now rewrite (proj2 (animate_altitude _ _)).
Qed.

(** ** Moving *)

Section Movement.
Local Open Scope R_scope.

(** The loop over the buttons on a shorter and on a longer list than the
    sixteen entries [gamepadState.buttons] starts with. *)
Example copy_buttons_examples :
  copy_buttons [true; false; true] (replicate 16 false) =
    [true; false; true] ++ replicate 13 false /\
  copy_buttons (replicate 17 true) (replicate 16 false) = replicate 17 true /\
  copy_buttons [] [true; false] = [true; false].
Proof. repeat split; reflexivity. Qed.

Lemma sin_quarter_turn (a : R) : sin (a + PI / 2) = cos a.
Proof. rewrite Rplus_comm. symmetry. apply cos_sin. Qed.

Lemma cos_quarter_turn (a : R) : cos (a + PI / 2) = - sin a.
Proof. rewrite Rplus_comm. pose proof (sin_cos a). lra. Qed.

(** Facts about [updateGamepad]: what it leaves alone. *)
Lemma updateGamepad_frame (gamepad : option Gamepad) (c : Closure) :
  keys (updateGamepad gamepad c) = keys c /\
  camera_position (updateGamepad gamepad c) = camera_position c /\
  armSwingSpeed (updateGamepad gamepad c) = armSwingSpeed c /\
  armSwing (updateGamepad gamepad c) = armSwing c.
Proof. destruct gamepad; repeat split; reflexivity. Qed.

Lemma dead_zone_split (v : R) :
  bool_decide (0.1 < Rabs v) = bool_decide (v < -0.1) || bool_decide (0.1 < v).
Proof.
  destruct (Rcase_abs v) as [Hneg|Hpos].
  - rewrite (Rabs_left v Hneg).
    rewrite (bool_decide_ext (0.1 < - v) (v < -0.1)) by lra.
    rewrite (bool_decide_eq_false_2 (0.1 < v)) by lra.
    now rewrite orb_false_r.
  - rewrite (Rabs_right v Hpos).
    rewrite (bool_decide_eq_false_2 (v < -0.1)) by lra.
    reflexivity.
Qed.

Lemma isMoving_directions (c : Closure) :
  isMoving c = goes_forward c || goes_back c || goes_left c || goes_right c.
Proof.
  unfold isMoving, goes_forward, goes_back, goes_left, goes_right.
  rewrite !dead_zone_split.
  destruct (held (keys c) "KeyW"), (held (keys c) "KeyS"),
    (held (keys c) "KeyA"), (held (keys c) "KeyD"),
    (bool_decide (stick_x _ < -0.1)), (bool_decide (0.1 < stick_x _)),
    (bool_decide (stick_y _ < -0.1)), (bool_decide (0.1 < stick_y _)); reflexivity.
Qed.

Lemma raw_direction_components (c : Closure) :
  raw_direction c = Vector3.mk (raw_x c) 0 (raw_z c).
Proof.
  unfold raw_direction, raw_x, raw_z.
  destruct (goes_forward c), (goes_back c), (goes_left c), (goes_right c); reflexivity.
Qed.

Lemma raw_direction_moving (c : Closure) :
  isMoving c = true -> 0 < raw_x c * raw_x c + 0 * 0 + raw_z c * raw_z c.
Proof.
  rewrite isMoving_directions. unfold raw_x, raw_z.
  destruct (goes_forward c), (goes_back c), (goes_left c), (goes_right c);
    cbn; intros H; try discriminate; lra.
Qed.

Lemma raw_direction_idle (c : Closure) :
  isMoving c = false -> raw_direction c = Vector3.zero.
Proof.
  rewrite isMoving_directions, raw_direction_components. unfold raw_x, raw_z.
  destruct (goes_forward c), (goes_back c), (goes_left c), (goes_right c);
    cbn; intros H; try discriminate; reflexivity.
Qed.


Lemma normalize_nonzero (dx dz : R) :
  0 < dx * dx + 0 * 0 + dz * dz ->
  exists u : R,
    Vector3.normalize (Vector3.mk dx 0 dz) = Vector3.mk (dx * u) (0 * u) (dz * u) /\
    u * u * (dx * dx + dz * dz) = 1.
Proof.
  intros Hpos. set (n := dx * dx + 0 * 0 + dz * dz) in *.
  assert (HL : 0 < sqrt n) by now apply sqrt_lt_R0.
  assert (HLL : sqrt n * sqrt n = n) by (apply sqrt_sqrt; lra).
  exists (1 / sqrt n). split.
  - unfold Vector3.normalize, Vector3.divideScalar, Vector3.multiplyScalar, Vector3.length, or_number.
    cbn [Vector3.x Vector3.y Vector3.z]. fold n.
    destruct (decide (sqrt n = 0)) as [H0|_]; [lra|reflexivity].
  - replace (dx * dx + dz * dz) with n by (unfold n; ring).
    rewrite <- HLL at 3. field. lra.
Qed.

Lemma speed_of_step (yaw0 dx dz u : R) (p : Vector3.t) :
  u * u * (dx * dx + dz * dz) = 1 ->
  let forward := Vector3.mk (sin yaw0) 0 (cos yaw0) in
  let right := Vector3.mk (sin (yaw0 + PI / 2)) 0 (cos (yaw0 + PI / 2)) in
  let v1 := Vector3.addScaledVector (Vector3.mk 0 0 0) forward (- (dz * u) * moveSpeed) in
  let v2 := Vector3.addScaledVector v1 right (dx * u * moveSpeed) in
  Vector3.length (Vector3.sub (Vector3.add p v2) p) = moveSpeed.
Proof.
  intros Hu. cbv zeta.
  unfold Vector3.length, Vector3.sub, Vector3.add, Vector3.addScaledVector.
  cbn [Vector3.x Vector3.y Vector3.z].
  rewrite sin_quarter_turn, cos_quarter_turn.
  pose proof (sin2_cos2 yaw0) as Hsc. unfold Rsqr in Hsc.
  apply sqrt_lem_1.
  - nra.
  - unfold moveSpeed. lra.
  - match goal with |- _ = ?E =>
      replace E with ((sin yaw0 * sin yaw0 + cos yaw0 * cos yaw0)
                      * (u * u * (dx * dx + dz * dz)) * (moveSpeed * moveSpeed)) by ring
    end.
    rewrite Hsc, Hu. ring.
Qed.

Lemma animate_displacement (f : Frame) (g : Game) :
  let c := tick_input f g in
  let d := Vector3.normalize (raw_direction c) in
  let forward := Vector3.mk (sin (yaw c)) 0 (cos (yaw c)) in
  let right := Vector3.mk (sin (yaw c + PI / 2)) 0 (cos (yaw c + PI / 2)) in
  let v1 := Vector3.addScaledVector (Vector3.mk 0 0 0) forward (- Vector3.z d * moveSpeed) in
  let v2 := Vector3.addScaledVector v1 right (Vector3.x d * moveSpeed) in
  displacement g (animate f g) = Vector3.sub (Vector3.add (camera_position (env g)) v2) (camera_position (env g)).
Proof.
  cbv zeta. unfold displacement, tick_input. cbn [animate with_env env camera_position].
  now rewrite (proj1 (proj2 (updateGamepad_frame _ _))).
Qed.

Lemma speed_when_moving (f : Frame) (g : Game) :
  isMoving (tick_input f g) = true ->
  Vector3.length (displacement g (animate f g)) = moveSpeed.
Proof.
  intros Hm. rewrite animate_displacement. cbv zeta.
  rewrite raw_direction_components.
  destruct (normalize_nonzero _ _ (raw_direction_moving _ Hm)) as (u & -> & Hu).
  cbn [Vector3.x Vector3.z]. now apply speed_of_step.
Qed.

End Movement.

Section MovementInputs.
Local Open Scope R_scope.

Lemma diagonal_is_moving (c : Closure) : diagonal_input c = true -> isMoving c = true.
Proof.
  rewrite isMoving_directions. unfold diagonal_input.
  destruct (goes_forward c), (goes_back c), (goes_left c), (goes_right c);
    cbn; congruence.
Qed.

Lemma axis_aligned_is_moving (c : Closure) : axis_aligned_input c = true -> isMoving c = true.
Proof.
  rewrite isMoving_directions. unfold axis_aligned_input.
  destruct (goes_forward c), (goes_back c), (goes_left c), (goes_right c);
    cbn; congruence.
Qed.

(** With the left stick at rest only the keys decide. *)
Lemma centred_stick (c : Closure) :
  leftStick (gamepadState c) = mkStick 0 0 ->
  goes_forward c = held (keys c) "KeyW" /\
  goes_back c = held (keys c) "KeyS" /\
  goes_left c = held (keys c) "KeyA" /\
  goes_right c = held (keys c) "KeyD".
Proof.
  intros H. unfold goes_forward, goes_back, goes_left, goes_right. rewrite H.
  cbn [stick_x stick_y].
  rewrite (bool_decide_eq_false_2 (0 < -0.1)) by lra.
  rewrite (bool_decide_eq_false_2 (0.1 < 0)) by lra.
  now rewrite !orb_false_r.
Qed.

Lemma isMoving_centred (c : Closure) :
  leftStick (gamepadState c) = mkStick 0 0 ->
  isMoving c =
    held (keys c) "KeyW" || held (keys c) "KeyS" || held (keys c) "KeyA" || held (keys c) "KeyD".
Proof.
  intros H. rewrite isMoving_directions.
  now destruct (centred_stick c H) as (-> & -> & -> & ->).
Qed.

Lemma normalize_zero : Vector3.normalize Vector3.zero = Vector3.zero.
Proof.
  unfold Vector3.normalize, Vector3.divideScalar, Vector3.multiplyScalar, Vector3.length,
    Vector3.zero, or_number.
  cbn [Vector3.x Vector3.y Vector3.z].
  replace (0 * 0 + 0 * 0 + 0 * 0) with 0 by ring. rewrite sqrt_0.
  destruct (decide (0 = 0)) as [_|Hne]; [|contradiction].
  f_equal; field.
Qed.

Lemma armSwingSpeed_animate (f : Frame) (g : Game) :
  armSwingSpeed (env (animate f g)) =
    if isMoving (tick_input f g) then 0.15 else armSwingSpeed (env g) * 0.9.
Proof.
  unfold tick_input. cbn [animate with_env env armSwingSpeed].
  now rewrite (proj1 (proj2 (proj2 (updateGamepad_frame _ _)))).
Qed.

Lemma idle_decay (fs : list Frame) (g : Game) :
  idle_frames g fs ->
  armSwingSpeed (env (run g (animationFrame <$> fs))) = armSwingSpeed (env g) * 0.9 ^ length fs.
Proof.
  revert g. induction fs as [|f fs IH]; intros g Hidle.
  - cbn. ring.
  - destruct Hidle as [Hf Hrest]. cbn [fmap list_fmap run foldl dispatch length pow].
    change (foldl dispatch (animate f g) (animationFrame <$> fs))
      with (run (animate f g) (animationFrame <$> fs)).
    rewrite (IH _ Hrest), armSwingSpeed_animate, Hf. ring.
Qed.
End MovementInputs.

(** C4.  A frame that finds forward and right both asked for moves the camera
    by as much as a frame that finds movement asked for along one axis only:
    by [moveSpeed], which is 0.15, in both cases. *)
Theorem diagonal_speed_is_axis_speed (f1 f2 : Frame) (g1 g2 : Game) :
  diagonal_input (tick_input f1 g1) = true ->
  axis_aligned_input (tick_input f2 g2) = true ->
  Vector3.length (displacement g1 (animate f1 g1)) =
    Vector3.length (displacement g2 (animate f2 g2)) /\
  Vector3.length (displacement g1 (animate f1 g1)) = 0.15%R /\
  Vector3.length (displacement g2 (animate f2 g2)) = 0.15%R.
Proof.
  intros Hd Ha.
  rewrite (speed_when_moving f1 g1) by now apply diagonal_is_moving.
  rewrite (speed_when_moving f2 g2) by now apply axis_aligned_is_moving.
  repeat split; reflexivity.
Qed.

Lemma diagonal_speed_is_axis_speed_witness :
  (diagonal_input (tick_input sample_frame sample_diagonal) = true /\
   axis_aligned_input (tick_input sample_frame sample_forward) = true) /\
  Vector3.length (displacement sample_diagonal (animate sample_frame sample_diagonal)) =
    Vector3.length (displacement sample_forward (animate sample_frame sample_forward)) /\
  Vector3.length (displacement sample_diagonal (animate sample_frame sample_diagonal)) = 0.15%R /\
  Vector3.length (displacement sample_forward (animate sample_frame sample_forward)) = 0.15%R.
Proof.
  assert (Hd : diagonal_input (tick_input sample_frame sample_diagonal) = true).
  { unfold diagonal_input.
    destruct (centred_stick (tick_input sample_frame sample_diagonal) eq_refl) as (-> & _ & _ & ->).
    reflexivity. }
  assert (Ha : axis_aligned_input (tick_input sample_frame sample_forward) = true).
  { unfold axis_aligned_input.
    destruct (centred_stick (tick_input sample_frame sample_forward) eq_refl) as (-> & -> & -> & ->).
    reflexivity. }
  split; [split; assumption|].
  exact (diagonal_speed_is_axis_speed sample_frame sample_frame sample_diagonal sample_forward Hd Ha).
Defined.

Section SwingSpeed.
Import Double.
Local Open Scope float_scope.

Lemma idle_ticks_S (n : nat) (s : float) :
  idle_ticks (S n) s = idle_ticks n (armSwingSpeed_tick false s).
Proof. unfold idle_ticks. now rewrite Nat.iter_succ_r. Qed.

Lemma idle_ticks_add (n m : nat) (s : float) :
  idle_ticks (n + m) s = idle_ticks n (idle_ticks m s).
Proof. unfold idle_ticks. apply Nat.iter_add. Qed.

Lemma decays_spec (k : nat) (s : float) :
  decays k s = true ->
  forall n : nat, (n < k)%nat ->
    (0 <? idle_ticks (S n) s) = true /\ (idle_ticks (S n) s <? idle_ticks n s) = true.
Proof.
  revert s. induction k as [|k IH]; intros s H n Hn; [lia|].
  cbn [decays] in H. apply andb_true_iff in H as [H Hk].
  apply andb_true_iff in H as [Hpos Hlt].
  destruct n as [|n]; [now split|].
  rewrite (idle_ticks_S (S n) s), (idle_ticks_S n s). apply IH; [exact Hk|lia].
Qed.

(** The 7032 idle frames after a moving one, run on the doubles. *)
Lemma decays_after_moving : decays (Z.to_nat 7032) 0.15 = true.
Proof. vm_compute. reflexivity. Qed.

Lemma idle_reaches_floor : idle_ticks (Z.to_nat 7032) 0.15 = floor_speed.
Proof. vm_compute. reflexivity. Qed.

Lemma floor_speed_fixed : armSwingSpeed_tick false floor_speed = floor_speed.
Proof. vm_compute. reflexivity. Qed.

Lemma idle_at_floor (n : nat) : idle_ticks n floor_speed = floor_speed.
Proof.
  induction n as [|n IH]; [reflexivity|].
  change (idle_ticks (S n) floor_speed)
    with (armSwingSpeed_tick false (idle_ticks n floor_speed)).
  rewrite IH. apply floor_speed_fixed.
Qed.

Lemma idle_from_floor_on (n : nat) :
  (7032 <= Z.of_nat n)%Z -> idle_ticks n 0.15 = floor_speed.
Proof.
  intros Hn. replace n with ((n - Z.to_nat 7032) + Z.to_nat 7032)%nat by lia.
  rewrite idle_ticks_add, idle_reaches_floor. apply idle_at_floor.
Qed.

Lemma ticks_snoc (s : float) (moving : list bool) (isMoving : bool) :
  ticks s (moving ++ [isMoving]) = armSwingSpeed_tick isMoving (ticks s moving).
Proof. unfold ticks. now rewrite foldl_app. Qed.

Lemma reached_speeds (moving : list bool) :
  ticks 0 moving = 0 \/ exists k : nat, ticks 0 moving = idle_ticks k 0.15.
Proof.
  induction moving as [|isMoving moving IH] using rev_ind; [now left|].
  rewrite ticks_snoc. destruct isMoving.
  - right. now exists 0%nat.
  - destruct IH as [->|[k ->]].
    + left. vm_compute. reflexivity.
    + right. now exists (S k).
Qed.
End SwingSpeed.

(** C8.  In the doubles of the program: a frame that finds the player moving
    sets the swing speed to 0.15, and a frame that finds the player idle
    sets it to the double nearest to nine tenths of it.  The speed starts at
    0, so every speed that is reached is 0 or the speed [n] idle frames
    after a moving one.  That speed is positive for every [n]; it gets
    smaller with each of the first 7032 idle frames and is
    [5 * 2 ^ -1074] from then on: it never reaches zero, and it stops
    approaching it. *)
Theorem arm_swing_speed_dynamics :
  (forall s : float, Double.armSwingSpeed_tick true s = 0.15%float) /\
  (forall s : float, Double.armSwingSpeed_tick false s = (s * 0.9)%float) /\
  (forall moving : list bool,
      Double.ticks 0 moving = 0%float \/
      exists k : nat, Double.ticks 0 moving = Double.idle_ticks k 0.15) /\
  (forall n : nat, (0 <? Double.idle_ticks n 0.15)%float = true) /\
  (forall n : nat, (Z.of_nat n < 7032)%Z ->
      (Double.idle_ticks (S n) 0.15 <? Double.idle_ticks n 0.15)%float = true) /\
  (forall n : nat, (7032 <= Z.of_nat n)%Z ->
      Double.idle_ticks n 0.15 = Double.floor_speed) /\
  Double.exact Double.floor_speed = Some (5 * Qpower 2 (-1074))%Q.
Proof.
  split; [reflexivity|]. split; [reflexivity|]. split; [apply reached_speeds|].
  split; [|split; [|split; [apply idle_from_floor_on|]]].
  - intros n. destruct (Z_lt_le_dec (Z.of_nat n) 7033) as [Hn|Hn].
    + destruct n as [|n]; [vm_compute; reflexivity|].
      apply (decays_spec _ _ decays_after_moving). lia.
    + rewrite idle_from_floor_on by lia. vm_compute. reflexivity.
  - intros n Hn. apply (decays_spec _ _ decays_after_moving). lia.
  - vm_compute. reflexivity.
Qed.

(** From the speed that 7032 idle frames leave, one more idle frame leads to
    that very speed, which is positive, and not to nine tenths of it: the
    speed after [n] idle frames is not [S * 0.9 ^ n], and the speeds do not
    approach zero. *)
Lemma arm_swing_speed_dynamics_counterexample :
  Double.idle_ticks (Z.to_nat 7032) 0.15 = Double.floor_speed /\
  Double.idle_ticks 1 Double.floor_speed = Double.floor_speed /\
  (0 <? Double.floor_speed)%float = true /\
  Double.exact (Double.idle_ticks 1 Double.floor_speed) = Some (5 * Qpower 2 (-1074))%Q /\
  ~ (5 * Qpower 2 (-1074) == 5 * Qpower 2 (-1074) * (9 # 10) ^ 1)%Q.
Proof.
  split; [apply idle_reaches_floor|]. split; [apply floor_speed_fixed|].
  split; [vm_compute; reflexivity|]. split; [vm_compute; reflexivity|].
  intros H. vm_compute in H. discriminate H.
Qed.

(** C10.  A frame that finds no movement asked for (none of the four keys
    held, both axes of the left stick within the dead zone) has [direction]
    at zero before normalising, divides it by 1 and not by its zero length,
    leaves it at zero, and leaves the camera where it was. *)
Theorem idle_tick_keeps_position (f : Frame) (g : Game) :
  isMoving (tick_input f g) = false ->
  raw_direction (tick_input f g) = Vector3.zero /\
  or_number (Vector3.length (raw_direction (tick_input f g))) 1 = 1%R /\
  direction (env (animate f g)) = Vector3.zero /\
  velocity (env (animate f g)) = Vector3.zero /\
  camera_position (env (animate f g)) = camera_position (env g).
Proof.
  intros Hidle. pose proof (raw_direction_idle _ Hidle) as Hraw.
  assert (Hdir : direction (env (animate f g)) = Vector3.zero).
  { cbn [animate with_env env direction]. fold (tick_input f g). rewrite Hraw. apply normalize_zero. }
  split; [exact Hraw|split; [|split; [exact Hdir|]]].
  - rewrite Hraw. unfold Vector3.length, Vector3.zero, or_number.
    cbn [Vector3.x Vector3.y Vector3.z].
    replace (0 * 0 + 0 * 0 + 0 * 0)%R with 0%R by ring. rewrite sqrt_0.
    destruct (decide (0 = 0)%R) as [_|Hne]; [reflexivity|contradiction].
  - cbn [animate with_env env direction velocity camera_position] in *. fold (tick_input f g) in *.
    rewrite Hdir. unfold tick_input.
    rewrite (proj1 (proj2 (updateGamepad_frame _ _))).
    destruct (camera_position (env g)) as [px py pz].
    unfold Vector3.add, Vector3.addScaledVector, Vector3.set, Vector3.zero.
    cbn [Vector3.x Vector3.y Vector3.z].
    split; f_equal; ring.
Qed.

Lemma idle_tick_keeps_position_witness :
  isMoving (tick_input sample_frame sample_start) = false /\
  raw_direction (tick_input sample_frame sample_start) = Vector3.zero /\
  or_number (Vector3.length (raw_direction (tick_input sample_frame sample_start))) 1 = 1%R /\
  direction (env (animate sample_frame sample_start)) = Vector3.zero /\
  velocity (env (animate sample_frame sample_start)) = Vector3.zero /\
  camera_position (env (animate sample_frame sample_start)) = camera_position (env sample_start).
Proof.
  assert (Hidle : isMoving (tick_input sample_frame sample_start) = false)
    by now rewrite (isMoving_centred (tick_input sample_frame sample_start) eq_refl).
  split; [exact Hidle|].
  exact (idle_tick_keeps_position sample_frame sample_start Hidle).
Defined.

(** ** The hotbar *)

Section Hotbar.
Import JsString.
Local Open Scope Z_scope.

Lemma numeral_value_cons (k : N) (d : Decimal.uint) (D : Decimal.uint -> Decimal.uint) :
  (forall d', Decimal.revapp (D d) d' = Decimal.revapp d (D d')) ->
  Unsigned.of_lu (D Decimal.Nil) = k ->
  numeral_value (D d) = Z.of_N k * 10 ^ numeral_size d + numeral_value d.
Proof.
  intros Hrev Hk. unfold numeral_value, numeral_size, Decimal.rev. rewrite Hrev.
  rewrite Unsigned.of_lu_revapp, Hk. unfold Decimal.rev.
  rewrite N2Z.inj_add, N2Z.inj_mul, N2Z.inj_pow. simpl (Z.of_N 10). lia.
Qed.

(** Reads the digit in front of the numeral and unfolds the value of the
    numeral by one digit. *)
Ltac read_digit :=
  cbn [NilEmpty.string_of_uint parse_digits];
  match goal with |- context [digit_value 10 ?c] =>
    let v := eval vm_compute in (digit_value 10 c) in
    change (digit_value 10 c) with v end;
  cbn [default from_option id].

Ltac unfold_numeral_value :=
  match goal with |- context [numeral_value (?D ?d0)] =>
    let k := eval vm_compute in (Unsigned.of_lu (D Decimal.Nil)) in
    rewrite (numeral_value_cons k d0 D (fun d' => eq_refl) eq_refl) end.

Lemma parse_digits_uint (d : Decimal.uint) (acc : Z) :
  parse_digits 10 (NilEmpty.string_of_uint d) (Some acc) =
    Some (acc * 10 ^ numeral_size d + numeral_value d).
Proof.
  revert acc. induction d as [|d IH|d IH|d IH|d IH|d IH|d IH|d IH|d IH|d IH|d IH]; intros acc.
  1: { cbn. f_equal. unfold numeral_value, numeral_size. cbn. lia. }
  all: read_digit; rewrite IH; f_equal; unfold_numeral_value.
  all: unfold numeral_size, Datatypes.id; cbn [Unsigned.usize Z.of_N];
    rewrite N2Z.inj_succ, Z.pow_succ_r by lia; ring.
Qed.

Lemma numeral_value_of_uint (d : Decimal.uint) : numeral_value d = Z.of_uint d.
Proof. unfold numeral_value, Z.of_uint. now rewrite Unsigned.of_uint_alt. Qed.

(** A decimal numeral is read back as its value, with or without a sign. *)
Lemma parseInt_uint (d : Decimal.uint) :
  d <> Decimal.Nil ->
  parseInt (NilEmpty.string_of_uint d) = Some (Z.of_uint d) /\
  parseInt (String "-" (NilEmpty.string_of_uint d)) = Some (- Z.of_uint d).
Proof.
  intros Hd. rewrite <- numeral_value_of_uint.
  assert (Hparse : parse_digits 10 (NilEmpty.string_of_uint d) None = Some (numeral_value d)).
  { destruct d; try contradiction;
      read_digit; rewrite parse_digits_uint; f_equal; unfold_numeral_value;
      cbn [Z.of_N]; ring. }
  assert (Htrim : trim_start (NilEmpty.string_of_uint d) = NilEmpty.string_of_uint d)
    by (destruct d; reflexivity).
  assert (Hsign : read_sign (NilEmpty.string_of_uint d) = (1, NilEmpty.string_of_uint d))
    by (destruct d; reflexivity).
  assert (Hradix : read_radix (NilEmpty.string_of_uint d) = (10, NilEmpty.string_of_uint d)).
  { destruct d as [|d|d|d|d|d|d|d|d|d|d]; try reflexivity. destruct d; reflexivity. }
  unfold parseInt. split.
  - rewrite Htrim, Hsign, Hradix, Hparse. cbn [fmap option_fmap option_map]. f_equal; lia.
  - cbn [trim_start]. change (is_white_space "-") with false. cbn [read_sign].
    rewrite Hradix, Hparse. cbn [fmap option_fmap option_map]. f_equal; lia.
Qed.

Lemma parseInt_decimal (n : Z) : parseInt (NilZero.string_of_int (Z.to_int n)) = Some n.
Proof.
  assert (Hpos : forall p, NilZero.string_of_uint (Pos.to_uint p) = NilEmpty.string_of_uint (Pos.to_uint p)).
  { intros p. pose proof (Unsigned.to_uint_nonnil p) as Hp.
    unfold NilZero.string_of_uint. now destruct (Pos.to_uint p). }
  destruct n as [|p|p].
  - reflexivity.
  - cbn [Z.to_int NilZero.string_of_int]. rewrite Hpos.
    rewrite (proj1 (parseInt_uint _ (Unsigned.to_uint_nonnil p))).
    f_equal. exact (DecimalZ.of_to (Z.pos p)).
  - cbn [Z.to_int NilZero.string_of_int]. rewrite Hpos.
    rewrite (proj2 (parseInt_uint _ (Unsigned.to_uint_nonnil p))).
    f_equal. exact (DecimalZ.of_to (Z.neg p)).
Qed.

(** The string functions on a few inputs. *)
Example parseInt_examples :
  parseInt "5" = Some 5 /\ parseInt "  42px" = Some 42 /\ parseInt "-7" = Some (-7) /\
  parseInt "0x1F" = Some 31 /\ parseInt "" = None /\ parseInt "px" = None /\
  parseInt "0x" = None /\ parseInt "08" = Some 8.
Proof. repeat split; reflexivity. Qed.

Example replace_examples :
  replace "Digit5" "Digit" "" = "5"%string /\
  replace "KeyDigit5Digit" "Digit" "" = "Key5Digit"%string /\
  replace "KeyW" "Digit" "" = "KeyW"%string.
Proof. repeat split; reflexivity. Qed.

Example startsWith_examples :
  startsWith "Digit5" "Digit" = true /\ startsWith "KeyW" "Digit" = false /\
  startsWith "Dig" "Digit" = false.
Proof. repeat split; reflexivity. Qed.

Example digit_code_examples :
  digit_code 5 = "Digit5"%string /\ digit_code 0 = "Digit0"%string /\
  digit_code 10 = "Digit10"%string /\ digit_code (-3) = "Digit-3"%string.
Proof. repeat split; reflexivity. Qed.

Lemma digit_code_parts (n : Z) :
  startsWith (digit_code n) "Digit" = true /\
  replace (digit_code n) "Digit" "" = NilZero.string_of_int (Z.to_int n).
Proof. split; reflexivity. Qed.

Lemma handleKeyDown_digit (n : Z) (g : Game) :
  selectedSlot (handleKeyDown (digit_code n) g) =
    if bool_decide (1 <= n <= 9) then n - 1 else selectedSlot g.
Proof.
  unfold handleKeyDown. cbv zeta.
  destruct (digit_code_parts n) as [-> ->]. rewrite parseInt_decimal. cbn [fmap option_fmap option_map].
  case_bool_decide as Hn.
  - replace ((0 <=? n - 1) && (n - 1 <? 9)) with true by (symmetry; apply andb_true_iff; lia).
    reflexivity.
  - replace ((0 <=? n - 1) && (n - 1 <? 9)) with false by (symmetry; apply andb_false_iff; lia).
    reflexivity.
Qed.
End Hotbar.

(** C7.  A key-down whose code is Digit followed by the decimal writing of
    [n] selects the slot [n - 1] when [n] is between 1 and 9, and leaves the
    selected slot as it is for every other [n]; so the key 5 selects the
    slot 4. *)
Theorem digit_key_selects_slot (n : Z) (g : Game) :
  selectedSlot (dispatch g (keydown (digit_code n))) =
    (if bool_decide (1 <= n <= 9)%Z then (n - 1)%Z else selectedSlot g) /\
  selectedSlot (dispatch g (keydown "Digit5")) = 4%Z.
Proof.
  split.
  - apply handleKeyDown_digit.
  - exact (handleKeyDown_digit 5 g).
Qed.

(** * Further properties *)

(** ** The built-in string functions

    The functions of [JsString] behave as the built-ins they stand for. *)

Section StringFunctions.
Import JsString.
Local Open Scope string_scope.

Lemma startsWith_app (p r : string) : startsWith (p +:+ r) p = true.
Proof.
  induction p as [|a p IH]; [reflexivity|].
  change (String a p +:+ r) with (String a (p +:+ r)).
  cbn [startsWith]. now rewrite Ascii.eqb_refl, IH.
Qed.

Lemma startsWith_inv (s p : string) : startsWith s p = true -> exists r, s = p +:+ r.
Proof.
  revert s. induction p as [|a p IH]; intros s H.
  - now exists s.
  - destruct s as [|b s]; [discriminate|]. cbn [startsWith] in H.
    apply andb_true_iff in H as [Hab Hs]. apply Ascii.eqb_eq in Hab as ->.
    destruct (IH s Hs) as [r ->]. now exists r.
Qed.

Lemma drop_app_length (p r : string) : drop (String.length p) (p +:+ r) = r.
Proof. induction p as [|a p IH]; [now destruct r|exact IH]. Qed.
End StringFunctions.

(** [startsWith] holds exactly of the strings that are the prefix followed
    by something. *)
Lemma startsWith_iff_prefix (s p : string) :
  JsString.startsWith s p = true <-> exists r : string, s = (p +:+ r)%string.
Proof.
  split.
  - apply startsWith_inv.
  - intros [r ->]. apply startsWith_app.
Qed.

Section Replace.
Import JsString.
Local Open Scope string_scope.

Lemma append_assoc (a b c : string) : (a +:+ b) +:+ c = a +:+ (b +:+ c).
Proof.
  induction a as [|x a IH]; [reflexivity|].
  change (String x ((a +:+ b) +:+ c) = String x (a +:+ (b +:+ c))). now rewrite IH.
Qed.

Lemma append_cons (x : ascii) (a b : string) : String x a +:+ b = String x (a +:+ b).
Proof. reflexivity. Qed.

Lemma append_nil_l (b : string) : "" +:+ b = b.
Proof. reflexivity. Qed.

Lemma replace_at_front (p b r : string) : replace (p +:+ b) p r = r +:+ b.
Proof.
  assert (H : startsWith (p +:+ b) p = true) by apply startsWith_app.
  destruct (p +:+ b) as [|c s] eqn:E; cbn [replace]; rewrite H, <- E; now rewrite drop_app_length.
Qed.
End Replace.

(** [replace] rewrites the first occurrence of the pattern and nothing
    else: when the pattern starts at no position within [a], the string
    [a p b] becomes [a r b]. *)
Lemma replace_first_occurrence (a b p r : string) :
  (forall a1 a2 : string, a = (a1 +:+ a2)%string -> a2 <> ""%string ->
     JsString.startsWith (a2 +:+ p +:+ b) p = false) ->
  JsString.replace (a +:+ p +:+ b) p r = (a +:+ r +:+ b)%string.
Proof.
  induction a as [|c a IH]; intros Hfirst.
  - change (JsString.replace (p +:+ b) p r = (r +:+ b)%string). apply replace_at_front.
  - change (String c a +:+ p +:+ b)%string with (String c (a +:+ p +:+ b)).
    cbn [JsString.replace].
    assert (H0 : JsString.startsWith (String c (a +:+ p +:+ b)) p = false)
      by (apply (Hfirst ""%string (String c a) eq_refl); discriminate).
    rewrite H0.
    change (String c a +:+ r +:+ b)%string with (String c (a +:+ r +:+ b)).
    f_equal. apply IH. intros a1 a2 -> Hne.
    now apply (Hfirst (String c a1) a2).
Qed.

Lemma replace_first_occurrence_example :
  (forall a1 a2 : string, "Key"%string = (a1 +:+ a2)%string -> a2 <> ""%string ->
     JsString.startsWith (a2 +:+ "Digit" +:+ "5Digit") "Digit" = false) /\
  JsString.replace "KeyDigit5Digit" "Digit" "" = "Key5Digit"%string.
Proof.
  assert (H : forall a1 a2 : string, "Key"%string = (a1 +:+ a2)%string -> a2 <> ""%string ->
     JsString.startsWith (a2 +:+ "Digit" +:+ "5Digit") "Digit" = false).
  { intros a1 a2 E Hne.
    destruct a1 as [|x1 [|x2 [|x3 [|x4 a1]]]];
      rewrite ?append_cons, ?append_nil_l in E.
    - now subst a2.
    - injection E as <- <-. reflexivity.
    - injection E as <- <- <-. reflexivity.
    - injection E as <- <- <- <-. contradiction.
    - discriminate E. }
  split; [exact H|].
  exact (replace_first_occurrence "Key" "5Digit" "Digit" "" H).
Qed.

(** A string in which the pattern starts nowhere is left as it is. *)
Lemma replace_without_occurrence (s p r : string) :
  (forall a1 a2 : string, s = (a1 +:+ a2)%string -> JsString.startsWith a2 p = false) ->
  JsString.replace s p r = s.
Proof.
  induction s as [|c s IH]; intros Hnone.
  - cbn [JsString.replace]. now rewrite (Hnone ""%string ""%string eq_refl).
  - cbn [JsString.replace]. rewrite (Hnone ""%string (String c s) eq_refl).
    f_equal. apply IH. intros a1 a2 ->. now apply (Hnone (String c a1) a2).
Qed.

(** ** Reading numbers *)

Section ParseInt.
Import JsString.
Local Open Scope Z_scope.

Ltac step_digit :=
  cbn [NilEmpty.string_of_uint parse_digits];
  match goal with |- context [digit_value 10 ?c] =>
    let v := eval vm_compute in (digit_value 10 c) in
    change (digit_value 10 c) with v end;
  cbn [default from_option id].

Ltac expand_numeral_value :=
  match goal with |- context [numeral_value (?D ?d0)] =>
    let k := eval vm_compute in (Unsigned.of_lu (D Decimal.Nil)) in
    rewrite (numeral_value_cons k d0 D (fun d' => eq_refl) eq_refl) end.

Lemma trim_start_white_space (ws s : string) :
  all_white_space ws = true -> trim_start (ws +:+ s) = trim_start s.
Proof.
  induction ws as [|c ws IH]; intros H; [reflexivity|].
  cbn [all_white_space] in H. apply andb_true_iff in H as [Hc Hws].
  rewrite append_cons. cbn [trim_start]. rewrite Hc. now apply IH.
Qed.

(** The first character of [rest], if any, is no decimal digit. *)
Lemma parse_digits_stop (n : Z) (rest : string) (acc : option Z) :
  ends_numeral n rest = true -> parse_digits 10 rest acc = acc.
Proof.
  destruct rest as [|c rest]; [reflexivity|].
  cbn [ends_numeral parse_digits]. now destruct (digit_value 10 c).
Qed.

Lemma parse_digits_uint_rest (n : Z) (rest : string) (d : Decimal.uint) (acc : Z) :
  ends_numeral n rest = true ->
  parse_digits 10 (NilEmpty.string_of_uint d +:+ rest) (Some acc) =
    Some (acc * 10 ^ numeral_size d + numeral_value d).
Proof.
  intros Hrest. revert acc.
  induction d as [|d IH|d IH|d IH|d IH|d IH|d IH|d IH|d IH|d IH|d IH]; intros acc.
  1: { cbn [NilEmpty.string_of_uint]. rewrite append_nil_l, (parse_digits_stop n) by exact Hrest.
       f_equal. unfold numeral_value, numeral_size. cbn. lia. }
  all: cbn [NilEmpty.string_of_uint]; rewrite append_cons; step_digit; rewrite IH; f_equal;
    expand_numeral_value.
  all: unfold numeral_size, Datatypes.id; cbn [Unsigned.usize Z.of_N];
    rewrite N2Z.inj_succ, Z.pow_succ_r by lia; ring.
Qed.

(** The decimal writing of a positive number does not start with a zero. *)
Lemma to_uint_no_leading_zero (p : positive) (d : Decimal.uint) :
  Pos.to_uint p <> Decimal.D0 d.
Proof.
  intros E.
  assert (Hnorm : Decimal.unorm (Pos.to_uint p) = Pos.to_uint p).
  { rewrite <- (Unsigned.to_of (Pos.to_uint p)), Unsigned.of_to. reflexivity. }
  rewrite E, DecimalFacts.unorm_D0 in Hnorm.
  destruct d as [|d|d|d|d|d|d|d|d|d|d];
    [exact (Unsigned.to_uint_nonzero p E)|..].
  all: match type of Hnorm with Decimal.unorm ?u = _ =>
         assert (Hu : u <> Decimal.Nil) by discriminate;
         pose proof (DecimalFacts.nb_digits_unorm u Hu) as Hle;
         rewrite Hnorm in Hle; cbn [Decimal.nb_digits] in Hle; lia
       end.
Qed.

Lemma read_radix_zero (rest : string) :
  ends_numeral 0 rest = true -> read_radix (String "0" rest) = (10, String "0" rest).
Proof.
  destruct rest as [|c rest]; [reflexivity|].
  cbn [ends_numeral]. destruct (digit_value 10 c); [discriminate|].
  change (0 =? 0) with true. cbn [andb].
  destruct c as [[] [] [] [] [] [] [] []]; cbn; intros H; try discriminate H; reflexivity.
Qed.

Lemma parseInt_numeral_rest (n : Z) (rest : string) :
  ends_numeral n rest = true -> parseInt (decimal n +:+ rest) = Some n.
Proof.
  intros Hrest. unfold decimal.
  assert (Hpos : forall p,
    let d := Pos.to_uint p in
    NilZero.string_of_uint d = NilEmpty.string_of_uint d /\
    trim_start (NilEmpty.string_of_uint d +:+ rest) = NilEmpty.string_of_uint d +:+ rest /\
    read_sign (NilEmpty.string_of_uint d +:+ rest) = (1, NilEmpty.string_of_uint d +:+ rest) /\
    read_radix (NilEmpty.string_of_uint d +:+ rest) = (10, NilEmpty.string_of_uint d +:+ rest) /\
    parse_digits 10 (NilEmpty.string_of_uint d +:+ rest) None = Some (Z.pos p)).
  { intros p d. pose proof (Unsigned.to_uint_nonnil p) as Hnil.
    pose proof (to_uint_no_leading_zero p) as Hzero.
    assert (Hval : numeral_value d = Z.pos p).
    { rewrite numeral_value_of_uint. exact (DecimalZ.of_to (Z.pos p)). }
    fold d in Hnil, Hzero. clearbody d.
    destruct d as [|d|d|d|d|d|d|d|d|d|d];
      [contradiction|exfalso; now apply (Hzero d)|..].
    all: repeat split; try reflexivity.
    all: rewrite <- Hval; cbn [NilEmpty.string_of_uint]; rewrite append_cons; step_digit;
      rewrite (parse_digits_uint_rest n) by exact Hrest; f_equal; expand_numeral_value;
      cbn [Z.of_N]; ring. }
  destruct n as [|p|p].
  - change (NilZero.string_of_int (Z.to_int 0)) with "0"%string.
    rewrite append_cons, append_nil_l. unfold parseInt.
    change (trim_start (String "0" rest)) with (String "0" rest).
    change (read_sign (String "0" rest)) with (1, String "0" rest). cbv beta iota.
    rewrite (read_radix_zero rest Hrest).
    change (parse_digits 10 (String "0" rest) None) with (parse_digits 10 rest (Some 0)).
    now rewrite (parse_digits_stop 0) by exact Hrest.
  - destruct (Hpos p) as (Hs & Htrim & Hsign & Hradix & Hparse).
    cbn [Z.to_int NilZero.string_of_int]. rewrite Hs. unfold parseInt.
    rewrite Htrim, Hsign, Hradix, Hparse. reflexivity.
  - destruct (Hpos p) as (Hs & Htrim & Hsign & Hradix & Hparse).
    cbn [Z.to_int NilZero.string_of_int]. rewrite Hs, append_cons. unfold parseInt.
    cbn [trim_start]. change (is_white_space "-") with false. cbn [read_sign].
    rewrite Hradix, Hparse. reflexivity.
Qed.
End ParseInt.

(** [parseInt] skips white space in front, reads the decimal numeral with its
    sign, and ignores what follows the numeral. *)
Lemma parseInt_reads_leading_numeral (ws rest : string) (n : Z) :
  all_white_space ws = true ->
  ends_numeral n rest = true ->
  JsString.parseInt (ws +:+ decimal n +:+ rest) = Some n.
Proof.
  intros Hws Hrest. unfold JsString.parseInt.
  rewrite trim_start_white_space by exact Hws.
  exact (parseInt_numeral_rest n rest Hrest).
Qed.

Lemma parseInt_reads_leading_numeral_example :
  (all_white_space "  " = true /\ ends_numeral 42 "px" = true) /\
  JsString.parseInt "  42px" = Some 42%Z.
Proof.
  split; [split; reflexivity|].
  exact (parseInt_reads_leading_numeral "  " "px" 42 eq_refl eq_refl).
Qed.

(** ** Which keys select a slot *)

Section KeyEntries.

Lemma held_insert (ks : gmap string bool) (c code : string) (b : bool) :
  held (<[c := b]> ks) code = if decide (c = code) then b else held ks code.
Proof. unfold held. rewrite lookup_insert. now destruct (decide (c = code)). Qed.

Lemma held_set_entry (ks : gmap string bool) (c code : string) (b : bool) :
  code <> "__proto__"%string ->
  held (set_entry ks c b) code = if decide (c = code) then b else held ks code.
Proof.
  intros Hcode. unfold set_entry. destruct (decide (c = "__proto__"%string)) as [->|Hc].
  - now rewrite decide_False by congruence.
  - apply held_insert.
Qed.

Lemma digit_code_not_proto (r : string) : ("Digit" +:+ r)%string <> "__proto__"%string.
Proof. rewrite !append_cons. discriminate. Qed.
End KeyEntries.

(** X1.  Only a digit code can select a slot: when a key-down changes the
    selected slot, the code of the key is Digit followed by text in which
    [parseInt] reads a number between 1 and 9, and the slot selected is that
    number less one. *)
Theorem only_digit_codes_select (code : string) (g : Game) :
  selectedSlot (handleKeyDown code g) <> selectedSlot g ->
  exists (rest : string) (n : Z),
    code = ("Digit" +:+ rest)%string /\
    JsString.parseInt rest = Some n /\
    (1 <= n <= 9)%Z /\
    selectedSlot (handleKeyDown code g) = (n - 1)%Z.
Proof.
  unfold handleKeyDown. cbv zeta.
  destruct (JsString.startsWith code "Digit") eqn:Hprefix;
    [|intros H; now contradiction H].
  apply startsWith_inv in Hprefix as [rest ->].
  rewrite replace_at_front, append_nil_l.
  destruct (JsString.parseInt rest) as [n|] eqn:Hn;
    cbn [fmap option_fmap option_map]; [|intros H; now contradiction H].
  destruct ((0 <=? n - 1)%Z && (n - 1 <? 9)%Z) eqn:E; [|intros H; now contradiction H].
  intros _. exists rest, n. apply andb_true_iff in E as [E1 E2].
  apply Z.leb_le in E1. apply Z.ltb_lt in E2.
  split; [reflexivity|]. split; [exact Hn|]. split; [lia|reflexivity].
Qed.

Lemma only_digit_codes_select_witness :
  selectedSlot (handleKeyDown "Digit5" sample_initial) <> selectedSlot sample_initial /\
  exists (rest : string) (n : Z),
    "Digit5"%string = ("Digit" +:+ rest)%string /\
    JsString.parseInt rest = Some n /\
    (1 <= n <= 9)%Z /\
    selectedSlot (handleKeyDown "Digit5" sample_initial) = (n - 1)%Z.
Proof.
  assert (H : selectedSlot (handleKeyDown "Digit5" sample_initial)
              <> selectedSlot sample_initial)
    by (change (4%Z <> 0%Z); discriminate).
  split; [exact H|]. exact (only_digit_codes_select "Digit5" sample_initial H).
Defined.

(** X2.  In a digit code, white space before the numeral and whatever follows
    the numeral are ignored: for a code that is Digit, white space, the
    decimal writing of [n] and text that does not continue the numeral, the
    key-down selects the slot [n - 1] when [n] is between 1 and 9 and selects
    nothing otherwise. *)
Theorem digit_code_with_padding (ws rest : string) (n : Z) (g : Game) :
  all_white_space ws = true ->
  ends_numeral n rest = true ->
  selectedSlot (handleKeyDown ("Digit" +:+ ws +:+ decimal n +:+ rest) g) =
    if bool_decide (1 <= n <= 9)%Z then (n - 1)%Z else selectedSlot g.
Proof.
  intros Hws Hrest. unfold handleKeyDown. cbv zeta.
  rewrite startsWith_app, replace_at_front, append_nil_l.
  rewrite (parseInt_reads_leading_numeral ws rest n Hws Hrest).
  cbn [fmap option_fmap option_map].
  destruct ((0 <=? n - 1)%Z && (n - 1 <? 9)%Z) eqn:E.
  - apply andb_true_iff in E as [E1 E2]. apply Z.leb_le in E1. apply Z.ltb_lt in E2.
    rewrite bool_decide_eq_true_2 by lia. reflexivity.
  - rewrite bool_decide_eq_false_2; [reflexivity|].
    apply andb_false_iff in E as [E|E]; [apply Z.leb_gt in E|apply Z.ltb_ge in E]; lia.
Qed.

Lemma digit_code_with_padding_witness :
  (all_white_space " " = true /\ ends_numeral 7 "th" = true) /\
  selectedSlot (handleKeyDown "Digit 7th" sample_start) = 6%Z.
Proof.
  split; [split; reflexivity|].
  exact (digit_code_with_padding " " "th" 7 sample_start eq_refl eq_refl).
Defined.

Section NotANumber.
Import JsString.

Lemma parseInt_no_digit (c : ascii) (s : string) :
  is_white_space c = false -> c <> "-"%char -> c <> "+"%char -> digit_value 10 c = None ->
  parseInt (String c s) = None.
Proof.
  intros Hws Hminus Hplus Hdigit.
  destruct c as [[] [] [] [] [] [] [] []];
    try discriminate Hws; try discriminate Hdigit; try congruence; reflexivity.
Qed.
End NotANumber.

(** X3.  Text that, after white space, starts with neither a sign nor a digit
    is not a number for [parseInt]; and a key whose code is Digit followed by
    such text is recorded as held but selects no slot. *)
Theorem parseInt_without_digit (ws : string) (c : ascii) (s : string) (g : Game) :
  all_white_space ws = true ->
  JsString.is_white_space c = false ->
  c <> "-"%char -> c <> "+"%char ->
  JsString.digit_value 10 c = None ->
  JsString.parseInt (ws +:+ String c s) = None /\
  selectedSlot (handleKeyDown ("Digit" +:+ ws +:+ String c s) g) = selectedSlot g /\
  held (keys (env (handleKeyDown ("Digit" +:+ ws +:+ String c s) g)))
       ("Digit" +:+ ws +:+ String c s) = true.
Proof.
  intros Hws Hc Hminus Hplus Hdigit.
  assert (Hnan : JsString.parseInt (ws +:+ String c s) = None).
  { unfold JsString.parseInt. rewrite trim_start_white_space by exact Hws.
    exact (parseInt_no_digit c s Hc Hminus Hplus Hdigit). }
  split; [exact Hnan|].
  unfold handleKeyDown. cbv zeta.
  change (JsString.startsWith ("Digit" +:+ ws +:+ String c s) "Digit") with true.
  change (JsString.replace ("Digit" +:+ ws +:+ String c s) "Digit" "")
    with (ws +:+ String c s)%string.
  rewrite Hnan. cbn [fmap option_fmap option_map with_env selectedSlot env with_keys keys].
  split; [reflexivity|].
  rewrite held_set_entry by apply digit_code_not_proto.
  now rewrite decide_True.
Qed.

Lemma parseInt_without_digit_witness :
  (all_white_space " " = true /\ JsString.is_white_space "p" = false /\
   "p"%char <> "-"%char /\ "p"%char <> "+"%char /\ JsString.digit_value 10 "p" = None) /\
  JsString.parseInt " px" = None /\
  selectedSlot (handleKeyDown "Digit px" sample_start) = selectedSlot sample_start /\
  held (keys (env (handleKeyDown "Digit px" sample_start))) "Digit px" = true.
Proof.
  split; [repeat split; discriminate|].
  apply (parseInt_without_digit " " "p" "x" sample_start); try reflexivity; discriminate.
Defined.

(** ** Keys, the hotbar and the React state *)

Section ReactState.
Local Open Scope Z_scope.

Lemma env_handleKeyDown (code : string) (g : Game) :
  env (handleKeyDown code g) = with_keys (env g) (set_entry (keys (env g)) code true).
Proof.
  unfold handleKeyDown.
  destruct (JsString.startsWith code "Digit"); [|reflexivity].
  destruct (_ <$> JsString.parseInt _) as [s|]; [|reflexivity].
  destruct (_ && _); reflexivity.
Qed.

Lemma selectedSlot_handleKeyDown (code : string) (g : Game) :
  selectedSlot (handleKeyDown code g) = selectedSlot g \/
  0 <= selectedSlot (handleKeyDown code g) < 9.
Proof.
  unfold handleKeyDown.
  destruct (JsString.startsWith code "Digit"); [|now left].
  destruct (_ <$> JsString.parseInt _) as [s|]; [|now left].
  destruct (_ && _) eqn:E; [|now left].
  right. cbn. apply andb_true_iff in E. lia.
Qed.

Lemma react_handleKeyDown (code : string) (g : Game) :
  health (handleKeyDown code g) = health g /\
  isPointerLocked (handleKeyDown code g) = isPointerLocked g /\
  fps (handleKeyDown code g) = fps g.
Proof.
  unfold handleKeyDown.
  destruct (JsString.startsWith code "Digit"); [|now repeat split].
  destruct (_ <$> JsString.parseInt _) as [s|]; [|now repeat split].
  destruct (_ && _); now repeat split.
Qed.

Lemma react_animate (f : Frame) (g : Game) :
  health (animate f g) = health g /\
  selectedSlot (animate f g) = selectedSlot g /\
  isPointerLocked (animate f g) = isPointerLocked g.
Proof. unfold animate. cbv zeta. now destruct (bool_decide _). Qed.

(** The closure a frame leaves depends on the closure it finds, not on the
    React state. *)
Lemma env_animate_closure (f : Frame) (g g' : Game) :
  env g = env g' -> env (animate f g) = env (animate f g').
Proof.
  intros E. unfold animate. cbv zeta. cbn [with_env env]. now rewrite E.
Qed.

Lemma isPointerLocked_after_change (locked : bool) (t0 : R) (first : Frame) (g : Game) :
  isPointerLocked (handlePointerLockChange locked t0 first g) = locked.
Proof.
  unfold handlePointerLockChange, run_effect.
  destruct (decide (locked = isPointerLocked g)) as [->|_]; [reflexivity|].
  now destruct (react_animate first (with_env (setIsPointerLocked locked g) (initial_closure t0)))
    as (_ & _ & ->).
Qed.

Lemma react_dispatch (g : Game) (e : Event) :
  health (dispatch g e) = health g /\
  (selectedSlot (dispatch g e) = selectedSlot g \/ 0 <= selectedSlot (dispatch g e) < 9).
Proof.
  destruct e as [code|code|dx dy| |locked t0 first|f]; cbn [dispatch].
  - split; [apply react_handleKeyDown|apply selectedSlot_handleKeyDown].
  - now split; [|left].
  - unfold handleMouseMove. destruct (negb _); now split; [|left].
  - unfold handleClick. destruct (negb _); now split; [|left].
  - unfold handlePointerLockChange, run_effect. destruct (decide _); [now split; [|left]|].
    destruct (react_animate first (with_env (setIsPointerLocked locked g) (initial_closure t0)))
      as (-> & -> & _). now split; [|left].
  - destruct (react_animate f g) as (-> & -> & _). now split; [|left].
Qed.

Lemma react_interact (g : Game) (i : Interaction) :
  health g = 10 /\ 0 <= selectedSlot g < 9 ->
  health (interact g i) = 10 /\ 0 <= selectedSlot (interact g i) < 9.
Proof.
  intros [Hh Hs]. destruct i as [e|index]; cbn [interact].
  - destruct (react_dispatch g e) as [-> [-> | Hnew]]; now split.
  - destruct (inventory !! index) as [item|] eqn:E; [|now split].
    apply lookup_lt_Some in E. cbn in E. cbn. split; [exact Hh|lia].
Qed.

Lemma react_session (interactions : list Interaction) (g : Game) :
  health g = 10 /\ 0 <= selectedSlot g < 9 ->
  health (session g interactions) = 10 /\ 0 <= selectedSlot (session g interactions) < 9.
Proof.
  revert g. induction interactions as [|i interactions IH]; intros g Hg; [exact Hg|].
  cbn. apply IH, react_interact, Hg.
Qed.

Lemma react_mount (t0 : R) (first : Frame) :
  health (mount t0 first) = 10 /\ 0 <= selectedSlot (mount t0 first) < 9.
Proof.
  unfold mount, run_effect.
  destruct (react_animate first (with_env (mkGame 10 0 false 0 (initial_closure t0)) (initial_closure t0)))
    as (-> & -> & _).
  cbn. lia.
Qed.

Lemma card_selected_slot (g : Game) :
  0 <= selectedSlot g < 9 ->
  card_selected g = <[Z.to_nat (selectedSlot g) := true]> (replicate 9 false).
Proof.
  intros H. unfold card_selected.
  assert (Hcases : selectedSlot g = 0 \/ selectedSlot g = 1 \/ selectedSlot g = 2 \/
                   selectedSlot g = 3 \/ selectedSlot g = 4 \/ selectedSlot g = 5 \/
                   selectedSlot g = 6 \/ selectedSlot g = 7 \/ selectedSlot g = 8) by lia.
  destruct Hcases as [-> | [-> | [-> | [-> | [-> | [-> | [-> | [-> | ->]]]]]]]]; reflexivity.
Qed.
End ReactState.

(** X4.  Whatever the host sends and whichever cards are clicked, from the
    mounting of the component on: the health stays 10, the selected slot stays
    a slot of the hotbar, there is an item in it, and exactly one card, the
    one at its index, is drawn as selected. *)
Theorem selected_slot_always_valid (t0 : R) (first : Frame) (interactions : list Interaction) :
  let g := session (mount t0 first) interactions in
  health g = 10%Z /\
  (0 <= selectedSlot g < 9)%Z /\
  is_Some (inventory !! Z.to_nat (selectedSlot g)) /\
  card_selected g = <[Z.to_nat (selectedSlot g) := true]> (replicate 9 false).
Proof.
  cbv zeta.
  destruct (react_session interactions (mount t0 first) (react_mount t0 first)) as [Hh Hs].
  split; [exact Hh|split; [exact Hs|split]].
  - apply lookup_lt_is_Some. cbn. lia.
  - now apply card_selected_slot.
Qed.

Section Keys.

Lemma keys_dispatch (g : Game) (e : Event) :
  keeps_effect e = true ->
  keys (env (dispatch g e)) =
    match e with
    | keydown c => set_entry (keys (env g)) c true
    | keyup c => set_entry (keys (env g)) c false
    | _ => keys (env g)
    end.
Proof.
  intros He. destruct e as [code|code|dx dy| |locked t0 first|f]; cbn [dispatch].
  - now rewrite env_handleKeyDown.
  - reflexivity.
  - unfold handleMouseMove. now destruct (negb _).
  - unfold handleClick. now destruct (negb _).
  - discriminate He.
  - cbn [animate with_env env keys]. now destruct (gamepad0 f).
Qed.

Lemma inherited_name_proto (code : string) :
  inherited_name code = false -> code <> "__proto__"%string.
Proof.
  unfold inherited_name. intros H ->. apply bool_decide_eq_false in H.
  apply H, list_elem_of_here.
Qed.
End Keys.

(** X5.  As long as the effect is not run again, a key whose code is no name
    of [Object.prototype], as is the code of every key, counts as held
    exactly when its latest key event is a key-down: nothing but the key
    events of that very code changes it. *)
Theorem key_held_until_released (code : string) (events : list Event) (g : Game) :
  inherited_name code = false ->
  Forall (fun e => keeps_effect e = true) events ->
  held (keys (env (run g events))) code = key_after code (held (keys (env g)) code) events.
Proof.
  intros Hcode Hev. apply inherited_name_proto in Hcode.
  revert g. induction Hev as [|e events He _ IH]; intros g; [reflexivity|].
  cbn [run foldl key_after]. unfold run, key_after in IH. rewrite IH. f_equal.
  rewrite (keys_dispatch g e He).
  destruct e; try reflexivity; now apply held_set_entry.
Qed.

Lemma key_held_until_released_witness :
  (inherited_name "KeyW" = false /\
   Forall (fun e => keeps_effect e = true)
     [keydown "KeyW"; animationFrame sample_frame; keyup "KeyW"; keydown "KeyA"]) /\
  held (keys (env (run sample_start
    [keydown "KeyW"; animationFrame sample_frame; keyup "KeyW"; keydown "KeyA"]))) "KeyW" =
  key_after "KeyW" (held (keys (env sample_start)) "KeyW")
    [keydown "KeyW"; animationFrame sample_frame; keyup "KeyW"; keydown "KeyA"].
Proof.
  assert (H : Forall (fun e => keeps_effect e = true)
    [keydown "KeyW"; animationFrame sample_frame; keyup "KeyW"; keydown "KeyA"])
    by (repeat constructor).
  split; [split; [reflexivity|exact H]|].
  exact (key_held_until_released "KeyW" _ sample_start eq_refl H).
Defined.

(** ** Pointer lock *)

(** X6.  A pointer-lock change that reports the state the component already
    has changes nothing. One that reports the other state starts the effect
    afresh: the variables of the closure are those of a component just
    mounted, so no key counts as held any more, while the selected slot and
    the health are kept. *)
Theorem pointer_lock_change_restarts (locked : bool) (t0 : R) (first : Frame) (g : Game) :
  let g' := handlePointerLockChange locked t0 first g in
  if decide (locked = isPointerLocked g) then g' = g
  else env g' = env (mount t0 first) /\
       isPointerLocked g' = locked /\
       selectedSlot g' = selectedSlot g /\
       health g' = health g /\
       forall code : string, held (keys (env g')) code = false.
Proof.
  cbv zeta. unfold handlePointerLockChange.
  destruct (decide (locked = isPointerLocked g)) as [_|_]; [reflexivity|].
  unfold run_effect.
  destruct (react_animate first (with_env (setIsPointerLocked locked g) (initial_closure t0)))
    as (Hh & Hs & Hl).
  split; [|split; [exact Hl|split; [exact Hs|split; [exact Hh|]]]].
  - unfold mount, run_effect. now apply env_animate_closure.
  - intros code. cbn [animate with_env env keys]. now destruct (gamepad0 first).
Qed.

(** ** The gamepad *)

Section GamepadPoll.
Local Open Scope R_scope.

Lemma axis_reading_clear (a : option R) : clear_of_dead_zone (axis_reading a).
Proof.
  unfold clear_of_dead_zone, axis_reading.
  destruct a as [v|]; [|now left].
  destruct (decide (0.1 < Rabs v)); [now right|now left].
Qed.

Lemma axis_reading_rest (a : option R) :
  match a with Some v => Rabs v <= 0.1 | None => True end -> axis_reading a = 0.
Proof.
  destruct a as [v|]; [|reflexivity]. intros H. unfold axis_reading.
  destruct (decide (0.1 < Rabs v)); [lra|reflexivity].
Qed.

Lemma at_rest_axis (gp : Gamepad) (i : nat) :
  at_rest gp -> (i < 4)%nat -> axis_reading (axes gp !! i) = 0.
Proof.
  intros Hrest Hi. apply axis_reading_rest.
  destruct (axes gp !! i) as [v|] eqn:E; [|exact I].
  unfold at_rest in Hrest. rewrite Forall_lookup in Hrest.
  apply (Hrest i). now rewrite lookup_take_lt.
Qed.

Lemma clamp_inside (p : R) :
  - PI / 2 <= p <= PI / 2 -> Rmax (- PI / 2) (Rmin (PI / 2) p) = p.
Proof.
  intros [Hlo Hhi]. rewrite Rmin_right by exact Hhi. now rewrite Rmax_right.
Qed.

Lemma sticks_clear_updateGamepad (gamepad : option Gamepad) (c : Closure) :
  sticks_clear c -> sticks_clear (updateGamepad gamepad c).
Proof.
  intros Hc. destruct gamepad as [gp|]; [|exact Hc].
  repeat split; apply axis_reading_clear.
Qed.

Lemma sticks_clear_dispatch (g : Game) (e : Event) :
  sticks_clear (env g) -> sticks_clear (env (dispatch g e)).
Proof.
  assert (Hfresh : forall t0, sticks_clear (initial_closure t0)).
  { intros t0. repeat split; now left. }
  intros Hg. destruct e as [code|code|dx dy| |locked t0 first|f]; cbn [dispatch].
  - now rewrite env_handleKeyDown.
  - exact Hg.
  - unfold handleMouseMove. now destruct (negb _).
  - unfold handleClick. now destruct (negb _).
  - unfold handlePointerLockChange, run_effect. destruct (decide _); [exact Hg|].
    exact (sticks_clear_updateGamepad (gamepad0 first) _ (Hfresh t0)).
  - exact (sticks_clear_updateGamepad (gamepad0 f) _ Hg).
Qed.

Lemma dead_zone_recheck (v : R) :
  clear_of_dead_zone v -> bool_decide (0.1 < Rabs v) = bool_decide (v <> 0).
Proof.
  intros [-> | H].
  - rewrite Rabs_R0. rewrite bool_decide_eq_false_2 by lra.
    now rewrite bool_decide_eq_false_2 by (intros H; now apply H).
  - rewrite bool_decide_eq_true_2 by exact H.
    rewrite bool_decide_eq_true_2; [reflexivity|].
    intros ->. rewrite Rabs_R0 in H. lra.
Qed.
End GamepadPoll.

(** X7.  From the mounting of the component on, each component of the two
    sticks that the closure keeps is zero or beyond the dead zone; so the
    second test of the dead zone, in [isMoving], only tells whether the left
    stick is at zero. *)
Theorem stick_readings_clear_dead_zone (t0 : R) (first : Frame) (events : list Event) :
  let c := env (run (mount t0 first) events) in
  sticks_clear c /\
  isMoving c =
    held (keys c) "KeyW" || held (keys c) "KeyS" || held (keys c) "KeyA" || held (keys c) "KeyD"
    || bool_decide (stick_x (leftStick (gamepadState c)) <> 0%R)
    || bool_decide (stick_y (leftStick (gamepadState c)) <> 0%R).
Proof.
  cbv zeta.
  assert (Hclear : sticks_clear (env (run (mount t0 first) events))).
  { assert (Hm : sticks_clear (env (mount t0 first))).
    { apply (sticks_clear_updateGamepad (gamepad0 first)). repeat split; now left. }
    revert Hm. generalize (mount t0 first).
    induction events as [|e events IH]; intros g Hg; [exact Hg|].
    cbn. apply IH, sticks_clear_dispatch, Hg. }
  split; [exact Hclear|].
  destruct Hclear as (Hx & Hy & _). unfold isMoving.
  now rewrite (dead_zone_recheck _ Hx), (dead_zone_recheck _ Hy).
Qed.

(** X8.  A gamepad whose axes are all within the dead zone, or missing, turns
    the view by nothing and leaves both sticks at zero. *)
Theorem resting_gamepad_no_drift (gp : Gamepad) (c : Closure) :
  at_rest gp ->
  (- PI / 2 <= pitch c <= PI / 2)%R ->
  let c' := updateGamepad (Some gp) c in
  yaw c' = yaw c /\ pitch c' = pitch c /\
  leftStick (gamepadState c') = mkStick 0 0 /\
  rightStick (gamepadState c') = mkStick 0 0.
Proof.
  intros Hrest Hpitch. cbv zeta.
  cbn [updateGamepad with_gamepadState with_look yaw pitch gamepadState leftStick rightStick
       stick_x stick_y].
  rewrite !(at_rest_axis gp) by (exact Hrest || lia).
  repeat split.
  - lra.
  - replace (pitch c - 0 * 0.05)%R with (pitch c) by lra. now apply clamp_inside.
Qed.

Lemma resting_gamepad_no_drift_witness :
  (at_rest (mkGamepad [0%R; 0%R] [true]) /\
   (- PI / 2 <= pitch (initial_closure 0) <= PI / 2)%R) /\
  yaw (updateGamepad (Some (mkGamepad [0%R; 0%R] [true])) (initial_closure 0)) =
    yaw (initial_closure 0) /\
  pitch (updateGamepad (Some (mkGamepad [0%R; 0%R] [true])) (initial_closure 0)) =
    pitch (initial_closure 0) /\
  leftStick (gamepadState (updateGamepad (Some (mkGamepad [0%R; 0%R] [true])) (initial_closure 0))) =
    mkStick 0 0 /\
  rightStick (gamepadState (updateGamepad (Some (mkGamepad [0%R; 0%R] [true])) (initial_closure 0))) =
    mkStick 0 0.
Proof.
  assert (Hrest : at_rest (mkGamepad [0%R; 0%R] [true])).
  { unfold at_rest. cbn. repeat constructor; rewrite Rabs_R0; lra. }
  assert (Hpitch : (- PI / 2 <= pitch (initial_closure 0) <= PI / 2)%R).
  { cbn. pose proof PI_RGT_0. lra. }
  split; [split; assumption|].
  exact (resting_gamepad_no_drift _ _ Hrest Hpitch).
Defined.

Section Buttons.

Lemma array_assign_next (pre rest : list bool) (v : bool) :
  array_assign (pre ++ rest) (length pre) v = (pre ++ [v]) ++ drop 1 rest.
Proof.
  unfold array_assign. rewrite length_app.
  destruct rest as [|b rest].
  - rewrite decide_False by (cbn; lia). cbn [length]. rewrite Nat.add_0_r, Nat.sub_diag.
    cbn. now rewrite !app_nil_r.
  - rewrite decide_True by (cbn; lia).
    replace (length pre) with (length pre + 0)%nat at 1 by lia.
    rewrite insert_app_r. cbn. now rewrite <- app_assoc.
Qed.

Lemma copy_buttons_from (ps pre rest : list bool) :
  foldl (fun acc ip => array_assign acc (fst ip) (snd ip)) (pre ++ rest)
        (imap (fun i p => (length pre + i, p)%nat) ps) =
  pre ++ ps ++ drop (length ps) rest.
Proof.
  revert pre rest. induction ps as [|p ps IH]; intros pre rest.
  - cbn. now rewrite drop_0.
  - cbn [imap foldl fst snd]. rewrite Nat.add_0_r, array_assign_next.
    rewrite (imap_ext _ (fun i q => (length (pre ++ [p]) + i, q)%nat))
      by (intros i x _; cbn; rewrite length_app; cbn; f_equal; lia).
    rewrite IH, drop_drop, <- app_assoc. reflexivity.
Qed.

Lemma copy_buttons_closed (ps bs : list bool) :
  copy_buttons ps bs = ps ++ drop (length ps) bs.
Proof. exact (copy_buttons_from ps [] bs). Qed.
End Buttons.

(** X9.  After a poll the cache of buttons starts with the [pressed] flags of
    the gamepad, in order; the entries beyond them are those of before, so the
    cache never shrinks, and without a gamepad it is left alone. *)
Theorem buttons_after_poll (gamepad : option Gamepad) (c : Closure) :
  let bs := buttons (gamepadState c) in
  let bs' := buttons (gamepadState (updateGamepad gamepad c)) in
  match gamepad with
  | Some gp =>
      bs' = pressed gp ++ drop (length (pressed gp)) bs /\
      length bs' = Nat.max (length (pressed gp)) (length bs) /\
      (forall i : nat, (i < length (pressed gp))%nat -> bs' !! i = pressed gp !! i) /\
      (forall i : nat, (length (pressed gp) <= i)%nat -> bs' !! i = bs !! i)
  | None => bs' = bs
  end.
Proof.
  cbv zeta. destruct gamepad as [gp|]; [|reflexivity].
  cbn [updateGamepad with_gamepadState gamepadState buttons].
  rewrite copy_buttons_closed. split; [reflexivity|split; [|split]].
  - rewrite length_app, length_drop. lia.
  - intros i Hi. now rewrite lookup_app_l.
  - intros i Hi. rewrite lookup_app_r by exact Hi. rewrite lookup_drop. f_equal. lia.
Qed.

(** ** Looking around with the mouse *)

Section MouseLook.
Local Open Scope R_scope.

Lemma run_mouse_moves_unlocked (ds : list (R * R)) (g : Game) :
  isPointerLocked g = false -> run g (mouse_moves ds) = g.
Proof.
  intros Hl. induction ds as [|d ds IH]; [reflexivity|].
  cbn [mouse_moves fmap list_fmap run foldl dispatch].
  rewrite handleMouseMove_unlocked by exact Hl. exact IH.
Qed.

Lemma yaw_mouse_moves_locked (ds : list (R * R)) (g : Game) :
  isPointerLocked g = true ->
  isPointerLocked (run g (mouse_moves ds)) = true /\
  yaw (env (run g (mouse_moves ds))) = yaw (env g) - 0.002 * Rsum (fst <$> ds).
Proof.
  revert g. induction ds as [|d ds IH]; intros g Hl.
  - cbn. split; [exact Hl|lra].
  - cbn [mouse_moves fmap list_fmap run foldl dispatch Rsum foldr].
    fold (mouse_moves ds). fold (Rsum (fst <$> ds)).
    change (foldl dispatch ?h (mouse_moves ds)) with (run h (mouse_moves ds)).
    destruct (IH (handleMouseMove d.1 d.2 g)) as [Hl' Hy].
    { rewrite handleMouseMove_locked by exact Hl. exact Hl. }
    split; [exact Hl'|]. rewrite Hy, handleMouseMove_locked by exact Hl. cbn. lra.
Qed.
End MouseLook.

(** X10.  Mouse moves add up: while the pointer is locked, a run of mouse
    moves turns the yaw by minus 0.002 times the sum of their [movementX],
    with no bound and no wrapping; while it is not locked the run changes
    nothing at all. *)
Theorem mouse_yaw_accumulates (ds : list (R * R)) (g : Game) :
  let g' := run g (mouse_moves ds) in
  if isPointerLocked g
  then yaw (env g') = (yaw (env g) - 0.002 * Rsum (fst <$> ds))%R
  else g' = g.
Proof.
  cbv zeta. destruct (isPointerLocked g) eqn:Hl.
  - now apply yaw_mouse_moves_locked.
  - now apply run_mouse_moves_unlocked.
Qed.

(** X11.  While the pointer is locked a mouse move lowers the pitch by 0.002
    times [movementY] as long as that stays within a quarter turn either way,
    and stops it at the quarter turn otherwise. *)
Theorem mouse_pitch_saturates (movementX movementY : R) (g : Game) :
  isPointerLocked g = true ->
  let p := (pitch (env g) - movementY * 0.002)%R in
  pitch (env (handleMouseMove movementX movementY g)) =
    if decide (PI / 2 < p)%R then (PI / 2)%R
    else if decide (p < - PI / 2)%R then (- PI / 2)%R
    else p.
Proof.
  intros Hl. cbv zeta. rewrite handleMouseMove_locked by exact Hl.
  cbn [with_env env with_look pitch].
  pose proof PI_RGT_0 as Hpi.
  set (p := (pitch (env g) - movementY * 0.002)%R).
  destruct (decide (PI / 2 < p)%R) as [Hhi|Hhi].
  - rewrite Rmin_left by lra. rewrite Rmax_right by lra. reflexivity.
  - rewrite Rmin_right by lra.
    destruct (decide (p < - PI / 2)%R) as [Hlo|Hlo].
    + now rewrite Rmax_left by lra.
    + now rewrite Rmax_right by lra.
Qed.

Lemma mouse_pitch_saturates_witness :
  isPointerLocked (handlePointerLockChange true 0 sample_frame sample_start) = true /\
  pitch (env (handleMouseMove 0 1 (handlePointerLockChange true 0 sample_frame sample_start))) =
    if decide (PI / 2 <
               pitch (env (handlePointerLockChange true 0 sample_frame sample_start)) - 1 * 0.002)%R
    then (PI / 2)%R
    else if decide (pitch (env (handlePointerLockChange true 0 sample_frame sample_start)) - 1 * 0.002
                    < - PI / 2)%R
    then (- PI / 2)%R
    else (pitch (env (handlePointerLockChange true 0 sample_frame sample_start)) - 1 * 0.002)%R.
Proof.
  split; [apply isPointerLocked_after_change|].
  exact (mouse_pitch_saturates 0 1 (handlePointerLockChange true 0 sample_frame sample_start)
           (isPointerLocked_after_change true 0 sample_frame sample_start)).
Defined.

(** ** Walking *)

Section Walking.
Local Open Scope R_scope.

Lemma or_number_nonzero (a : R) : or_number a 1 <> 0.
Proof. unfold or_number. destruct (decide (a = 0)); [lra|assumption]. Qed.

Lemma camera_position_animate (f : Frame) (g : Game) :
  camera_position (env (animate f g)) =
    Vector3.add (camera_position (env g)) (step (tick_input f g)).
Proof.
  unfold tick_input. cbn [animate with_env env camera_position].
  rewrite (proj1 (proj2 (updateGamepad_frame _ _))).
  set (c := updateGamepad (gamepad0 f) (env g)).
  rewrite raw_direction_components.
  unfold step, Vector3.normalize, Vector3.divideScalar, Vector3.multiplyScalar, Vector3.length,
    Vector3.addScaledVector, Vector3.add, Vector3.set.
  cbn [Vector3.x Vector3.y Vector3.z].
  replace (raw_x c * raw_x c + 0 * 0 + raw_z c * raw_z c)
    with (raw_x c * raw_x c + raw_z c * raw_z c) by ring.
  rewrite sin_quarter_turn, cos_quarter_turn.
  pose proof (or_number_nonzero (sqrt (raw_x c * raw_x c + raw_z c * raw_z c))) as Hn.
  f_equal; field; exact Hn.
Qed.

Lemma sub_add_cancel (p v : Vector3.t) : Vector3.sub (Vector3.add p v) p = v.
Proof.
  destruct p, v. unfold Vector3.sub, Vector3.add. cbn [Vector3.x Vector3.y Vector3.z].
  f_equal; ring.
Qed.

Lemma vector_eq (a b c a' b' c' : R) :
  a = a' -> b = b' -> c = c' -> Vector3.mk a b c = Vector3.mk a' b' c'.
Proof. now intros -> -> ->. Qed.

Lemma step_along (c : Closure) (rx rz : R) :
  raw_x c = rx -> raw_z c = rz -> rx * rx + rz * rz = 1 ->
  step c = Vector3.mk (moveSpeed * (rx * cos (yaw c) - rz * sin (yaw c))) 0
                      (moveSpeed * (- rx * sin (yaw c) - rz * cos (yaw c))).
Proof.
  intros Hx Hz H1. unfold step. cbv zeta. rewrite Hx, Hz, H1, sqrt_1.
  unfold or_number. destruct (decide (1 = 0)) as [H|_]; [lra|].
  f_equal; field.
Qed.

Lemma animate_without_gamepad (f : Frame) (g : Game) :
  gamepad0 f = None ->
  tick_input f g = env g /\
  keys (env (animate f g)) = keys (env g) /\
  gamepadState (env (animate f g)) = gamepadState (env g) /\
  yaw (env (animate f g)) = yaw (env g).
Proof.
  intros H. unfold tick_input. cbn [animate with_env env keys gamepadState yaw].
  rewrite H. now repeat split.
Qed.

Lemma step_ext (c c' : Closure) :
  keys c = keys c' -> gamepadState c = gamepadState c' -> yaw c = yaw c' -> step c = step c'.
Proof.
  intros Hk Hg Hy.
  unfold step, raw_x, raw_z, goes_forward, goes_back, goes_left, goes_right.
  now rewrite Hk, Hg, Hy.
Qed.
End Walking.

(** X12.  The step of the camera in a frame, in closed form: its length is
    [moveSpeed] along the direction that the keys and the left stick ask for,
    turned by the yaw as the frame finds it after polling the gamepad,
    whatever the deflection of the stick beyond the dead zone. *)
Theorem displacement_closed_form (f : Frame) (g : Game) :
  displacement g (animate f g) = step (tick_input f g).
Proof.
  unfold displacement. rewrite camera_position_animate. apply sub_add_cancel.
Qed.

(** X13.  With the left stick at rest, what each key does: W moves the camera
    by 0.15 along [(sin yaw, 0, cos yaw)] and S by as much the other way, also
    when W is held too; D moves it by 0.15 along [(cos yaw, 0, - sin yaw)],
    also when A is held too, and A the other way. *)
Theorem key_directions (f : Frame) (g : Game) :
  let c := tick_input f g in
  let d := displacement g (animate f g) in
  leftStick (gamepadState c) = mkStick 0 0 ->
  (held (keys c) "KeyW" = true -> held (keys c) "KeyS" = false ->
   held (keys c) "KeyA" = false -> held (keys c) "KeyD" = false ->
   d = Vector3.mk (0.15 * sin (yaw c)) 0 (0.15 * cos (yaw c))) /\
  (held (keys c) "KeyS" = true ->
   held (keys c) "KeyA" = false -> held (keys c) "KeyD" = false ->
   d = Vector3.mk (- 0.15 * sin (yaw c)) 0 (- 0.15 * cos (yaw c))) /\
  (held (keys c) "KeyD" = true ->
   held (keys c) "KeyW" = false -> held (keys c) "KeyS" = false ->
   d = Vector3.mk (0.15 * cos (yaw c)) 0 (- 0.15 * sin (yaw c))) /\
  (held (keys c) "KeyA" = true -> held (keys c) "KeyD" = false ->
   held (keys c) "KeyW" = false -> held (keys c) "KeyS" = false ->
   d = Vector3.mk (- 0.15 * cos (yaw c)) 0 (0.15 * sin (yaw c)))%R.
Proof.
  cbv zeta. intros Hrest. unfold displacement. rewrite camera_position_animate, sub_add_cancel.
  destruct (centred_stick _ Hrest) as (Hf & Hb & Hl & Hr).
  set (c := tick_input f g) in *.
  repeat split.
  - intros HW HS HA HD.
    rewrite (step_along c 0 (-1)); unfold raw_x, raw_z; rewrite ?Hf, ?Hb, ?Hl, ?Hr, ?HW, ?HS, ?HA, ?HD;
      try reflexivity; try lra.
    unfold moveSpeed. apply vector_eq; lra.
  - intros HS HA HD.
    rewrite (step_along c 0 1); unfold raw_x, raw_z; rewrite ?Hf, ?Hb, ?Hl, ?Hr, ?HS, ?HA, ?HD;
      try reflexivity; try lra.
    unfold moveSpeed. apply vector_eq; lra.
  - intros HD HW HS.
    rewrite (step_along c 1 0); unfold raw_x, raw_z; rewrite ?Hf, ?Hb, ?Hl, ?Hr, ?HW, ?HS, ?HD;
      try reflexivity; try lra.
    unfold moveSpeed. apply vector_eq; lra.
  - intros HA HD HW HS.
    rewrite (step_along c (-1) 0); unfold raw_x, raw_z; rewrite ?Hf, ?Hb, ?Hl, ?Hr, ?HW, ?HS, ?HA, ?HD;
      try reflexivity; try lra.
    unfold moveSpeed. apply vector_eq; lra.
Qed.

Lemma key_directions_witness :
  leftStick (gamepadState (tick_input sample_frame sample_forward)) = mkStick 0 0 /\
  displacement sample_forward (animate sample_frame sample_forward) =
    Vector3.mk (0.15 * sin (yaw (tick_input sample_frame sample_forward))) 0
               (0.15 * cos (yaw (tick_input sample_frame sample_forward))).
Proof.
  split; [reflexivity|].
  apply (proj1 (key_directions sample_frame sample_forward eq_refl)); reflexivity.
Defined.

(** X14.  Frames that read no gamepad take the same step one after the other:
    after [n] of them the camera is [n] steps from where it was. *)
Theorem steady_walk (fs : list Frame) (g : Game) :
  Forall (fun f => gamepad0 f = None) fs ->
  camera_position (env (run g (animationFrame <$> fs))) =
    Vector3.add (camera_position (env g))
                (Vector3.multiplyScalar (step (env g)) (INR (length fs))).
Proof.
  intros Hfs. revert g. induction Hfs as [|f fs Hf _ IH]; intros g.
  - cbn. destruct (camera_position (env g)), (step (env g)).
    unfold Vector3.add, Vector3.multiplyScalar. cbn. apply vector_eq; lra.
  - cbn [fmap list_fmap run foldl dispatch length].
    change (foldl dispatch (animate f g) (animationFrame <$> fs))
      with (run (animate f g) (animationFrame <$> fs)).
    destruct (animate_without_gamepad f g Hf) as (Ht & Hk & Hg & Hy).
    rewrite IH, camera_position_animate, Ht, (step_ext _ _ Hk Hg Hy), S_INR.
    destruct (camera_position (env g)), (step (env g)).
    unfold Vector3.add, Vector3.multiplyScalar. cbn [Vector3.x Vector3.y Vector3.z].
    apply vector_eq; ring.
Qed.

Lemma steady_walk_witness :
  Forall (fun f => gamepad0 f = None) [sample_frame; sample_frame; sample_frame] /\
  camera_position (env (run sample_forward
                          (animationFrame <$> [sample_frame; sample_frame; sample_frame]))) =
    Vector3.add (camera_position (env sample_forward))
                (Vector3.multiplyScalar (step (env sample_forward)) (INR 3)).
Proof.
  assert (H : Forall (fun f => gamepad0 f = None) [sample_frame; sample_frame; sample_frame])
    by (repeat constructor).
  split; [exact H|].
  exact (steady_walk [sample_frame; sample_frame; sample_frame] sample_forward H).
Defined.

(** ** The arm and the rotations *)

Section Arm.
Local Open Scope R_scope.

Lemma armSwing_animate (f : Frame) (g : Game) :
  armSwing (env (animate f g)) = armSwing (env g) + armSwingSpeed (env (animate f g)).
Proof.
  cbn [animate with_env env armSwing armSwingSpeed].
  now rewrite (proj2 (proj2 (proj2 (updateGamepad_frame _ _)))).
Qed.

Lemma speed_bounds_animate (f : Frame) (g : Game) :
  0 <= armSwingSpeed (env g) <= 0.15 -> 0 <= armSwingSpeed (env (animate f g)) <= 0.15.
Proof.
  intros H. rewrite armSwingSpeed_animate. destruct (isMoving _); lra.
Qed.

Lemma arm_rotation_animate (f : Frame) (g : Game) :
  let r := armGroup_rotation (env (animate f g)) in
  -0.3 <= Vector3.x r <= 0.3 /\
  Vector3.y r = Vector3.y (armGroup_rotation (env g)) /\
  -0.1 <= Vector3.z r <= 0.1.
Proof.
  cbv zeta. cbn [animate with_env env armGroup_rotation Vector3.x Vector3.y Vector3.z].
  set (a := armSwing _ + _).
  pose proof (SIN_bound a). pose proof (SIN_bound (a * 0.5)).
  split; [lra|split; [|lra]].
  now destruct (gamepad0 f).
Qed.

Lemma camera_rotation_animate (f : Frame) (g : Game) :
  camera_rotation (env (animate f g)) =
    Vector3.mk (pitch (env (animate f g))) (yaw (env (animate f g))) 0.
Proof. reflexivity. Qed.

(** What holds of the arm and of the two rotations whenever the invariant
    [P] holds after mounting and is kept by frames. *)
Lemma closure_invariant (P : Closure -> Prop) :
  (forall t0, P (initial_closure t0)) ->
  (forall f g, P (env g) -> P (env (animate f g))) ->
  (forall c ks, P c -> P (with_keys c ks)) ->
  (forall c y p, - PI / 2 <= p <= PI / 2 -> P c -> P (with_look c y p)) ->
  forall t0 first events, P (env (run (mount t0 first) events)).
Proof.
  intros Hinit Hframe Hkeys Hlook t0 first events.
  assert (Hm : P (env (mount t0 first))) by (apply Hframe, Hinit).
  revert Hm. generalize (mount t0 first).
  induction events as [|e events IH]; intros g Hg; [exact Hg|].
  cbn. apply IH. destruct e as [code|code|dx dy| |locked t1 first1|f]; cbn [dispatch].
  - rewrite env_handleKeyDown. now apply Hkeys.
  - now apply Hkeys.
  - unfold handleMouseMove. destruct (negb _); [exact Hg|].
    apply Hlook; [apply clamp_in_range|exact Hg].
  - unfold handleClick. now destruct (negb _).
  - unfold handlePointerLockChange, run_effect. destruct (decide _); [exact Hg|].
    apply Hframe, Hinit.
  - now apply Hframe.
Qed.
End Arm.

(** X15.  From the mounting of the component on, the swing speed of the arm is
    between 0 and 0.15, the rotation of the arm group is within 0.3 about x
    and within 0.1 about z and is none about y. *)
Theorem arm_stays_in_range (t0 : R) (first : Frame) (events : list Event) :
  let c := env (run (mount t0 first) events) in
  (0 <= armSwingSpeed c <= 0.15)%R /\
  (-0.3 <= Vector3.x (armGroup_rotation c) <= 0.3)%R /\
  Vector3.y (armGroup_rotation c) = 0%R /\
  (-0.1 <= Vector3.z (armGroup_rotation c) <= 0.1)%R.
Proof.
  cbv zeta.
  apply (closure_invariant (fun c =>
    (0 <= armSwingSpeed c <= 0.15)%R /\
    (-0.3 <= Vector3.x (armGroup_rotation c) <= 0.3)%R /\
    Vector3.y (armGroup_rotation c) = 0%R /\
    (-0.1 <= Vector3.z (armGroup_rotation c) <= 0.1)%R)).
  - intros t. cbn. repeat split; lra.
  - intros f g (Hs & _ & Hy & _).
    destruct (arm_rotation_animate f g) as (Hx' & Hy' & Hz').
    split; [now apply speed_bounds_animate|].
    split; [exact Hx'|split; [now rewrite Hy'|exact Hz']].
  - intros c ks H. exact H.
  - intros c y p _ H. exact H.
Qed.

(** X16.  From the mounting of the component on, the camera has no roll, and
    its rotation about x is within a quarter turn either way; right after a
    frame its rotation is the pitch and the yaw of the closure. *)
Theorem camera_never_rolls (t0 : R) (first : Frame) (events : list Event) (f : Frame) :
  let g := run (mount t0 first) events in
  Vector3.z (camera_rotation (env g)) = 0%R /\
  (- PI / 2 <= Vector3.x (camera_rotation (env g)) <= PI / 2)%R /\
  camera_rotation (env (animate f g)) =
    Vector3.mk (pitch (env (animate f g))) (yaw (env (animate f g))) 0.
Proof.
  cbv zeta. split; [|split; [|reflexivity]].
  - apply (closure_invariant (fun c => Vector3.z (camera_rotation c) = 0%R));
      try (intros; assumption); reflexivity.
  - apply (closure_invariant (fun c =>
      (- PI / 2 <= pitch c <= PI / 2)%R /\
      (- PI / 2 <= Vector3.x (camera_rotation c) <= PI / 2)%R)).
    + intros t. cbn. pose proof PI_RGT_0. lra.
    + intros f0 g0 [Hp _].
      assert (Hp' : (- PI / 2 <= pitch (env (animate f0 g0)) <= PI / 2)%R)
        by (rewrite pitch_animate; now apply pitch_updateGamepad).
      split; [exact Hp'|]. rewrite camera_rotation_animate. exact Hp'.
    + intros c ks H. exact H.
    + intros c y p Hp [_ Hr]. split; [exact Hp|exact Hr].
Qed.

Section ArmPhase.
Local Open Scope R_scope.

Lemma pow_09_bounds (n : nat) : 0 <= 0.9 ^ n <= 1.
Proof.
  split; [apply pow_le; lra|].
  rewrite <- (pow1 n). apply pow_incr. lra.
Qed.

Lemma idle_phase (fs : list Frame) (g : Game) :
  idle_frames g fs ->
  armSwing (env (run g (animationFrame <$> fs))) =
    armSwing (env g) + 9 * armSwingSpeed (env g) * (1 - 0.9 ^ length fs).
Proof.
  revert g. induction fs as [|f fs IH]; intros g Hidle.
  - cbn. ring.
  - destruct Hidle as [Hf Hrest]. cbn [fmap list_fmap run foldl dispatch length pow].
    change (foldl dispatch (animate f g) (animationFrame <$> fs))
      with (run (animate f g) (animationFrame <$> fs)).
    rewrite (IH _ Hrest), armSwing_animate, armSwingSpeed_animate, Hf. lra.
Qed.

Lemma moving_phase (fs : list Frame) (g : Game) :
  moving_frames g fs ->
  armSwing (env (run g (animationFrame <$> fs))) = armSwing (env g) + 0.15 * INR (length fs) /\
  (fs <> [] -> armSwingSpeed (env (run g (animationFrame <$> fs))) = 0.15).
Proof.
  revert g. induction fs as [|f fs IH]; intros g Hmoving.
  - cbn. split; [lra|congruence].
  - destruct Hmoving as [Hf Hrest]. cbn [fmap list_fmap run foldl dispatch length].
    change (foldl dispatch (animate f g) (animationFrame <$> fs))
      with (run (animate f g) (animationFrame <$> fs)).
    destruct (IH _ Hrest) as [Hphase Hspeed].
    assert (Hs : armSwingSpeed (env (animate f g)) = 0.15)
      by now rewrite armSwingSpeed_animate, Hf.
    split.
    + rewrite Hphase, armSwing_animate, Hs, S_INR. lra.
    + intros _. destruct fs as [|f' fs]; [exact Hs|]. now apply Hspeed.
Qed.
End ArmPhase.

(** X17.  Once the player stops, the arm comes to rest: after [n] consecutive
    idle frames the phase of the swing has advanced by [9 * S * (1 - 0.9 ^
    n)], where [S] is the swing speed before them, hence by less than nine
    times that speed however long the player stays idle. *)
Theorem arm_comes_to_rest (g : Game) (fs : list Frame) :
  idle_frames g fs ->
  let g' := run g (animationFrame <$> fs) in
  armSwing (env g') =
    (armSwing (env g) + 9 * armSwingSpeed (env g) * (1 - 0.9 ^ length fs))%R /\
  ((0 <= armSwingSpeed (env g))%R ->
   (armSwing (env g) <= armSwing (env g') <= armSwing (env g) + 9 * armSwingSpeed (env g))%R).
Proof.
  intros Hidle. cbv zeta. rewrite (idle_phase fs g Hidle). split; [reflexivity|].
  intros HS. pose proof (pow_09_bounds (length fs)). nra.
Qed.

Lemma arm_comes_to_rest_witness :
  idle_frames sample_stopped [sample_frame; sample_frame] /\
  armSwing (env (run sample_stopped (animationFrame <$> [sample_frame; sample_frame]))) =
    (armSwing (env sample_stopped) + 9 * armSwingSpeed (env sample_stopped) * (1 - 0.9 ^ 2))%R.
Proof.
  assert (Hidle : idle_frames sample_stopped [sample_frame; sample_frame]).
  { cbn [idle_frames]. split; [|split; [|exact I]].
    - now rewrite (isMoving_centred (tick_input sample_frame sample_stopped) eq_refl).
    - now rewrite (isMoving_centred
                     (tick_input sample_frame (animate sample_frame sample_stopped)) eq_refl). }
  split; [exact Hidle|].
  exact (proj1 (arm_comes_to_rest sample_stopped [sample_frame; sample_frame] Hidle)).
Defined.

(** X18.  While the player keeps moving, the phase of the swing advances by
    0.15 in each frame. *)
Theorem arm_swings_while_moving (g : Game) (fs : list Frame) :
  moving_frames g fs ->
  let g' := run g (animationFrame <$> fs) in
  armSwing (env g') = (armSwing (env g) + 0.15 * INR (length fs))%R /\
  (fs <> [] -> armSwingSpeed (env g') = 0.15%R).
Proof. intros Hmoving. cbv zeta. now apply moving_phase. Qed.

Lemma arm_swings_while_moving_witness :
  moving_frames sample_forward [sample_frame; sample_frame] /\
  armSwing (env (run sample_forward (animationFrame <$> [sample_frame; sample_frame]))) =
    (armSwing (env sample_forward) + 0.15 * INR 2)%R.
Proof.
  assert (Hmoving : moving_frames sample_forward [sample_frame; sample_frame]).
  { cbn [moving_frames]. split; [|split; [|exact I]].
    - now rewrite (isMoving_centred (tick_input sample_frame sample_forward) eq_refl).
    - now rewrite (isMoving_centred
                     (tick_input sample_frame (animate sample_frame sample_forward)) eq_refl). }
  split; [exact Hmoving|].
  exact (proj1 (arm_swings_while_moving sample_forward [sample_frame; sample_frame] Hmoving)).
Defined.

(** ** The frame counter *)

Section FrameCounter.
Local Open Scope R_scope.

Lemma counter_animate (f : Frame) (g : Game) :
  lastTime (env (animate f g)) = now f /\
  if bool_decide (500 <= window_elapsed g f)
  then fps (animate f g) = round (IZR (frameCount (env g) + 1) * 1000 / window_elapsed g f) /\
       frameCount (env (animate f g)) = 0%Z /\
       fpsUpdateTime (env (animate f g)) = 0
  else fps (animate f g) = fps g /\
       frameCount (env (animate f g)) = (frameCount (env g) + 1)%Z /\
       fpsUpdateTime (env (animate f g)) = window_elapsed g f.
Proof.
  unfold window_elapsed. cbn [animate with_env env lastTime frameCount fpsUpdateTime fps].
  split; [reflexivity|].
  destruct (bool_decide (500 <= _)); cbn [setFps fps]; now repeat split.
Qed.

Lemma quiet_frame (f : Frame) (g : Game) :
  window_elapsed g f < 500 ->
  fps (animate f g) = fps g /\
  frameCount (env (animate f g)) = (frameCount (env g) + 1)%Z /\
  forall f', window_elapsed (animate f g) f' = window_elapsed g f'.
Proof.
  intros H. destruct (counter_animate f g) as [Hlast Hc].
  rewrite bool_decide_eq_false_2 in Hc by lra. destruct Hc as (Hfps & Hfc & Hfut).
  split; [exact Hfps|split; [exact Hfc|]].
  intros f'. unfold window_elapsed at 1. rewrite Hlast, Hfut. unfold window_elapsed. ring.
Qed.

Lemma quiet_frames (fs : list Frame) (g : Game) :
  Forall (fun f => window_elapsed g f < 500) fs ->
  fps (run g (animationFrame <$> fs)) = fps g /\
  frameCount (env (run g (animationFrame <$> fs))) = (frameCount (env g) + Z.of_nat (length fs))%Z /\
  forall f', window_elapsed (run g (animationFrame <$> fs)) f' = window_elapsed g f'.
Proof.
  revert g. induction fs as [|f fs IH]; intros g Hq.
  - cbn. repeat split. lia.
  - apply Forall_cons in Hq as [Hf Hq].
    destruct (quiet_frame f g Hf) as (Hfps & Hfc & Hw).
    cbn [fmap list_fmap run foldl dispatch length].
    change (foldl dispatch (animate f g) (animationFrame <$> fs))
      with (run (animate f g) (animationFrame <$> fs)).
    destruct (IH (animate f g)) as (Hfps' & Hfc' & Hw').
    { eapply Forall_impl; [exact Hq|]. intros f' Hf'. cbn beta. now rewrite Hw. }
    split; [now rewrite Hfps'|split; [rewrite Hfc', Hfc; lia|]].
    intros f'. now rewrite Hw'.
Qed.

Lemma round_IZR (n : Z) : round (IZR n) = n.
Proof. unfold round. apply Zfloor_eq. lra. Qed.
End FrameCounter.

(** X19.  The published rate is that of one window: while the accumulated time
    stays below 500 the frames are only counted; the frame that brings it to
    500 or more publishes the number of frames counted, that frame included,
    times 1000 over the accumulated time, rounded, and starts a new window. A
    window of exactly 500 publishes twice its number of frames. *)
Theorem fps_published_per_window (g : Game) (fs : list Frame) (f : Frame) :
  Forall (fun f' => window_elapsed g f' < 500)%R fs ->
  (500 <= window_elapsed g f)%R ->
  let before := run g (animationFrame <$> fs) in
  let after := animate f before in
  let frames := (frameCount (env g) + Z.of_nat (length fs) + 1)%Z in
  fps before = fps g /\
  fps after = round (IZR frames * 1000 / window_elapsed g f) /\
  frameCount (env after) = 0%Z /\
  fpsUpdateTime (env after) = 0%R /\
  lastTime (env after) = now f /\
  (window_elapsed g f = 500%R -> fps after = (2 * frames)%Z).
Proof.
  intros Hquiet Hfull. cbv zeta.
  destruct (quiet_frames fs g Hquiet) as (Hfps & Hfc & Hw).
  destruct (counter_animate f (run g (animationFrame <$> fs))) as [Hlast Hc].
  rewrite Hw, bool_decide_eq_true_2 in Hc by exact Hfull.
  destruct Hc as (Hpub & Hfc0 & Hfut0). rewrite Hfc in Hpub.
  split; [exact Hfps|split; [exact Hpub|split; [exact Hfc0|split; [exact Hfut0|split; [exact Hlast|]]]]].
  intros H500. rewrite Hpub, H500, <- round_IZR. f_equal.
  rewrite mult_IZR. lra.
Qed.

Section FrameCounterSample.
Local Open Scope R_scope.

Lemma sample_start_counter :
  frameCount (env sample_start) = 1%Z /\
  forall f, window_elapsed sample_start f = now f.
Proof.
  unfold sample_start, mount, run_effect.
  set (g0 := with_env _ _).
  assert (H0 : window_elapsed g0 (mkFrame 0 None) < 500) by (unfold window_elapsed; cbn; lra).
  destruct (quiet_frame (mkFrame 0 None) g0 H0) as (_ & Hfc & Hw).
  split; [exact Hfc|]. intros f. rewrite Hw. unfold window_elapsed. cbn. lra.
Qed.
End FrameCounterSample.

Lemma fps_published_per_window_witness :
  (Forall (fun f' => window_elapsed sample_start f' < 500)%R
     [mkFrame 100 None; mkFrame 300 None] /\
   (500 <= window_elapsed sample_start (mkFrame 500 None))%R) /\
  fps (animate (mkFrame 500 None)
         (run sample_start (animationFrame <$> [mkFrame 100 None; mkFrame 300 None]))) = 8%Z.
Proof.
  destruct sample_start_counter as [Hfc Hw].
  assert (Hq : Forall (fun f' => window_elapsed sample_start f' < 500)%R
                 [mkFrame 100 None; mkFrame 300 None]).
  { repeat constructor; rewrite Hw; cbn; lra. }
  assert (Hf : (500 <= window_elapsed sample_start (mkFrame 500 None))%R).
  { rewrite Hw. cbn. lra. }
  split; [split; assumption|].
  destruct (fps_published_per_window sample_start _ (mkFrame 500 None) Hq Hf)
    as (_ & _ & _ & _ & _ & H500).
  rewrite H500 by (rewrite Hw; reflexivity).
  rewrite Hfc. reflexivity.
Defined.

(** X20.  From the mounting of the component on, no window is left open with
    500 or more accumulated, and the count of frames is never negative. *)
Theorem frame_counter_in_range (t0 : R) (first : Frame) (events : list Event) :
  let c := env (run (mount t0 first) events) in
  (fpsUpdateTime c < 500)%R /\ (0 <= frameCount c)%Z.
Proof.
  cbv zeta.
  apply (closure_invariant (fun c => (fpsUpdateTime c < 500)%R /\ (0 <= frameCount c)%Z)).
  - intros t. cbn. split; [lra|lia].
  - intros f g [Hfut Hfc]. destruct (counter_animate f g) as [_ Hc].
    destruct (bool_decide (500 <= window_elapsed g f)%R) eqn:E.
    + destruct Hc as (_ & -> & ->). split; [lra|lia].
    + destruct Hc as (_ & -> & ->). apply bool_decide_eq_false in E. split; [lra|lia].
  - intros c ks H. exact H.
  - intros c y p _ H. exact H.
Qed.

Section PublishedRate.
Local Open Scope R_scope.

Lemma round_nonneg (a : R) : 0 <= a -> (0 <= round a)%Z.
Proof. intros H. unfold round. apply Zfloor_lub. cbn. lra. Qed.

Lemma rate_animate (f : Frame) (g : Game) :
  (0 <= fps g)%Z /\ (0 <= frameCount (env g))%Z ->
  (0 <= fps (animate f g))%Z /\ (0 <= frameCount (env (animate f g)))%Z.
Proof.
  intros [Hfps Hfc]. destruct (counter_animate f g) as [_ Hc].
  destruct (bool_decide (500 <= window_elapsed g f)) eqn:E.
  - destruct Hc as (-> & -> & _). apply bool_decide_eq_true in E.
    split; [|lia]. apply round_nonneg.
    assert (0 <= IZR (frameCount (env g) + 1)) by (apply IZR_le; lia).
    apply Rmult_le_pos; [nra|]. apply Rlt_le, Rinv_0_lt_compat. lra.
  - destruct Hc as (-> & -> & _). split; [exact Hfps|lia].
Qed.

Lemma rate_dispatch (g : Game) (e : Event) :
  (0 <= fps g)%Z /\ (0 <= frameCount (env g))%Z ->
  (0 <= fps (dispatch g e))%Z /\ (0 <= frameCount (env (dispatch g e)))%Z.
Proof.
  intros Hg. destruct e as [code|code|dx dy| |locked t1 first1|f]; cbn [dispatch].
  - destruct (react_handleKeyDown code g) as (_ & _ & ->). now rewrite env_handleKeyDown.
  - exact Hg.
  - unfold handleMouseMove. now destruct (negb _).
  - unfold handleClick. now destruct (negb _).
  - unfold handlePointerLockChange, run_effect. destruct (decide _); [exact Hg|].
    apply rate_animate. cbn. split; [tauto|lia].
  - now apply rate_animate.
Qed.
End PublishedRate.

Section StaleLoops.
Local Open Scope R_scope.

Lemma same_but_fps_refl (g : Game) : same_but_fps g g.
Proof. now repeat split. Qed.

Lemma same_but_fps_trans (g1 g2 g3 : Game) :
  same_but_fps g1 g2 -> same_but_fps g2 g3 -> same_but_fps g1 g3.
Proof. intros (? & ? & ? & ?) (? & ? & ? & ?). repeat split; congruence. Qed.

Lemma same_but_fps_setFps (n : Z) (g : Game) : same_but_fps (setFps n g) g.
Proof. now repeat split. Qed.

(** Two states that differ at most in the published rate are the same
    state up to that rate. *)
Lemma same_but_fps_inv (g g' : Game) :
  same_but_fps g g' -> g = setFps (fps g) g'.
Proof.
  destruct g, g'. unfold same_but_fps, setFps. cbn.
  intros (-> & -> & -> & ->). reflexivity.
Qed.

Lemma dispatch_setFps (n : Z) (g : Game) (e : Event) :
  same_but_fps (dispatch (setFps n g) e) (dispatch g e).
Proof.
  destruct e as [code|code|dx dy| |locked t1 first1|f]; cbn [dispatch].
  - unfold handleKeyDown. cbv zeta. cbn [setFps env].
    destruct (JsString.startsWith code "Digit"); [|now repeat split].
    destruct (_ <$> JsString.parseInt _) as [slot|]; [|now repeat split].
    destruct (_ && _); now repeat split.
  - now repeat split.
  - unfold handleMouseMove. cbn [setFps isPointerLocked env].
    destruct (negb _); now repeat split.
  - unfold handleClick. cbn [setFps isPointerLocked]. destruct (negb _); now repeat split.
  - unfold handlePointerLockChange, run_effect. cbn [setFps isPointerLocked].
    destruct (decide _); [now repeat split|].
    unfold animate. cbv zeta. cbn [with_env setIsPointerLocked env].
    destruct (bool_decide _); now repeat split.
  - unfold animate. cbv zeta. cbn [setFps env].
    destruct (bool_decide _); now repeat split.
Qed.

Lemma dispatch_same_but_fps (g g' : Game) (e : Event) :
  same_but_fps g g' -> same_but_fps (dispatch g e) (dispatch g' e).
Proof. intros H. rewrite (same_but_fps_inv g g' H). apply dispatch_setFps. Qed.

Lemma run_same_but_fps (events : list Event) (g g' : Game) :
  same_but_fps g g' -> same_but_fps (run g events) (run g' events).
Proof.
  revert g g'. induction events as [|e events IH]; intros g g' H; [exact H|].
  cbn. apply IH, dispatch_same_but_fps, H.
Qed.

Lemma rate_stale_frame (f : Frame) (g : Game) (c : Closure) :
  (0 <= fps g)%Z -> (0 <= frameCount c)%Z ->
  (0 <= fps (animate f (with_env g c)))%Z /\
  (0 <= frameCount (env (animate f (with_env g c))))%Z.
Proof. intros Hfps Hfc. apply rate_animate. now split. Qed.

Lemma rate_page_dispatch (p : Page) (pe : PageEvent) :
  (0 <= fps (live p))%Z /\ (0 <= frameCount (env (live p)))%Z /\
  Forall (fun c => (0 <= frameCount c)%Z) (stale p) ->
  let p' := page_dispatch p pe in
  (0 <= fps (live p'))%Z /\ (0 <= frameCount (env (live p')))%Z /\
  Forall (fun c => (0 <= frameCount c)%Z) (stale p').
Proof.
  intros (Hfps & Hfc & Hstale). destruct pe as [e|i f]; cbn [page_dispatch]; cbv zeta.
  - cbn [live stale]. destruct (rate_dispatch (live p) e (conj Hfps Hfc)) as [H1 H2].
    split; [exact H1|split; [exact H2|]]. apply Forall_app. split; [exact Hstale|].
    destruct e; try apply Forall_nil_2.
    destruct (decide _); [apply Forall_nil_2|]. apply Forall_singleton, Hfc.
  - destruct (stale p !! i) as [c|] eqn:Hc; [|now repeat split].
    cbn [live stale]. pose proof (Forall_lookup_1 _ _ _ _ Hstale Hc) as Hc0. cbn beta in Hc0.
    destruct (rate_stale_frame f (live p) c Hfps Hc0) as [H1 H2].
    split; [exact H1|split; [exact Hfc|]]. now apply Forall_insert.
Qed.
End StaleLoops.

(** X21.  The loops of earlier runs change nothing of the live run but the
    rate that is published: whatever reaches the page, frames of earlier
    runs among it, the variables of the live run, the health, the selected
    slot and the pointer lock are those that the events of the live run
    alone lead to. *)
Theorem stale_loops_only_publish (p : Page) (events : list PageEvent) :
  same_but_fps (live (page_run p events)) (run (live p) (live_events events)).
Proof.
  revert p. induction events as [|pe events IH]; intros p; [apply same_but_fps_refl|].
  change (page_run p (pe :: events)) with (page_run (page_dispatch p pe) events).
  eapply same_but_fps_trans; [apply IH|].
  destruct pe as [e|i f]; cbn [live_events omap list_omap page_dispatch]; cbv zeta.
  - apply same_but_fps_refl.
  - apply run_same_but_fps. destruct (stale p !! i); [|apply same_but_fps_refl].
    apply same_but_fps_setFps.
Qed.

(** X22.  The loop of an earlier run goes on publishing: a frame of it that
    brings the time accumulated in its own counter to 500 or more sets the
    rate of the page from the counter of that run, and starts a new window
    there. *)
Theorem stale_loop_publishes (p : Page) (i : nat) (c : Closure) (f : Frame) :
  stale p !! i = Some c ->
  (500 <= closure_elapsed c f)%R ->
  let p' := page_dispatch p (stale_frame i f) in
  fps (live p') = round (IZR (frameCount c + 1) * 1000 / closure_elapsed c f) /\
  exists c' : Closure,
    stale p' !! i = Some c' /\ frameCount c' = 0%Z /\ fpsUpdateTime c' = 0%R /\
    lastTime c' = now f.
Proof.
  intros Hc Hw. cbn [page_dispatch]. rewrite Hc. cbv zeta. cbn [live stale].
  destruct (counter_animate f (with_env (live p) c)) as [Hlast Hcount].
  change (window_elapsed (with_env (live p) c) f) with (closure_elapsed c f) in Hcount.
  rewrite bool_decide_eq_true_2 in Hcount by exact Hw.
  destruct Hcount as (Hfps & Hfc & Hfut).
  split; [exact Hfps|].
  exists (env (animate f (with_env (live p) c))).
  split; [|now repeat split].
  apply list_lookup_insert_eq. now apply lookup_lt_Some in Hc.
Qed.

Lemma stale_loop_publishes_witness :
  (stale sample_page !! 0%nat = Some (initial_closure 0) /\
   (500 <= closure_elapsed (initial_closure 0) (mkFrame 500 None))%R) /\
  fps (live (page_dispatch sample_page (stale_frame 0 (mkFrame 500 None)))) =
    round (IZR (frameCount (initial_closure 0) + 1) * 1000
           / closure_elapsed (initial_closure 0) (mkFrame 500 None)).
Proof.
  assert (H : (500 <= closure_elapsed (initial_closure 0) (mkFrame 500 None))%R)
    by (unfold closure_elapsed; cbn; lra).
  split; [split; [reflexivity|exact H]|].
  exact (proj1 (stale_loop_publishes sample_page 0 (initial_closure 0) (mkFrame 500 None)
                  eq_refl H)).
Defined.

(** X23.  From the mounting of the component on, the rate that is published
    is never negative, whatever the clock reads from one frame to the next
    and whichever loops of earlier runs publish in between. *)
Theorem fps_never_negative (t0 : R) (first : Frame) (events : list PageEvent) :
  (0 <= fps (live (page_run (page_mount t0 first) events)))%Z.
Proof.
  assert (Hm : (0 <= fps (live (page_mount t0 first)))%Z /\
               (0 <= frameCount (env (live (page_mount t0 first))))%Z /\
               Forall (fun c => (0 <= frameCount c)%Z) (stale (page_mount t0 first))).
  { cbn [page_mount live stale]. unfold mount, run_effect.
    destruct (rate_animate first
                (with_env (mkGame 10 0 false 0 (initial_closure t0)) (initial_closure t0)))
      as [H1 H2]; [cbn; lia|].
    split; [exact H1|split; [exact H2|apply Forall_nil_2]]. }
  revert Hm. generalize (page_mount t0 first).
  induction events as [|pe events IH]; intros p Hp; [apply Hp|].
  change (page_run p (pe :: events)) with (page_run (page_dispatch p pe) events).
  apply IH, rate_page_dispatch, Hp.
Qed.

(** ** The terrain *)

Section TerrainShape.
Local Open Scope R_scope.

Lemma noise_odd_x (x z : R) : noise (- x) z = - noise x z.
Proof.
  unfold noise. cbv zeta.
  replace (- x * 0.1) with (- (x * 0.1)) by lra.
  replace (- (x * 0.1) * 2) with (- (x * 0.1 * 2)) by lra.
  replace (- (x * 0.1) * 4) with (- (x * 0.1 * 4)) by lra.
  rewrite !sin_neg. lra.
Qed.

Lemma noise_even_z (x z : R) : noise x (- z) = noise x z.
Proof.
  unfold noise. cbv zeta.
  replace (- z * 0.1) with (- (z * 0.1)) by lra.
  replace (- (z * 0.1) * 2) with (- (z * 0.1 * 2)) by lra.
  replace (- (z * 0.1) * 4) with (- (z * 0.1 * 4)) by lra.
  now rewrite !cos_neg.
Qed.

Lemma noise_period_x (x z : R) : noise (x + 20 * PI) z = noise x z.
Proof.
  unfold noise. cbv zeta.
  replace ((x + 20 * PI) * 0.1) with (x * 0.1 + 2 * INR 1 * PI) by (simpl; lra).
  replace ((x * 0.1 + 2 * INR 1 * PI) * 2) with (x * 0.1 * 2 + 2 * INR 2 * PI) by (simpl; lra).
  replace ((x * 0.1 + 2 * INR 1 * PI) * 4) with (x * 0.1 * 4 + 2 * INR 4 * PI) by (simpl; lra).
  now rewrite !sin_period.
Qed.

Lemma noise_period_z (x z : R) : noise x (z + 20 * PI) = noise x z.
Proof.
  unfold noise. cbv zeta.
  replace ((z + 20 * PI) * 0.1) with (z * 0.1 + 2 * INR 1 * PI) by (simpl; lra).
  replace ((z * 0.1 + 2 * INR 1 * PI) * 2) with (z * 0.1 * 2 + 2 * INR 2 * PI) by (simpl; lra).
  replace ((z * 0.1 + 2 * INR 1 * PI) * 4) with (z * 0.1 * 4 + 2 * INR 4 * PI) by (simpl; lra).
  now rewrite !cos_period.
Qed.
End TerrainShape.

(** X24.  The height field is odd in [x] and even in [z], and it repeats every
    [20 * PI] in each direction; along the line [x = 0] it is zero, so the
    blocks of that line are all at the height 8. *)
Theorem noise_symmetries (x z : R) :
  noise (- x) z = (- noise x z)%R /\
  noise x (- z) = noise x z /\
  noise (x + 20 * PI) z = noise x z /\
  noise x (z + 20 * PI) = noise x z /\
  noise 0 z = 0%R /\
  Zfloor (noise 0 z + 8) = 8%Z.
Proof.
  assert (H0 : noise 0 z = 0%R).
  { pose proof (noise_odd_x 0 z) as H. rewrite Ropp_0 in H. lra. }
  split; [apply noise_odd_x|split; [apply noise_even_z|]].
  split; [apply noise_period_x|split; [apply noise_period_z|split; [exact H0|]]].
  rewrite H0. apply Zfloor_eq. lra.
Qed.

Section Grid.
Local Open Scope Z_scope.

Lemma concat_singletons {A B : Type} (h : A -> B) (l : list A) :
  concat (map (fun a => [h a]) l) = map h l.
Proof. induction l as [|a l IH]; [reflexivity|]. cbn. now rewrite IH. Qed.

Lemma concat_flat_map {A B : Type} (f : A -> list (list B)) (l : list A) :
  concat (flat_map f l) = flat_map (fun a => concat (f a)) l.
Proof.
  induction l as [|a l IH]; [reflexivity|]. cbn. now rewrite concat_app, IH.
Qed.

Lemma chunk_boxes_columns (cx cz : Z) :
  chunk_boxes cx cz =
    flat_map (fun x => map (fun z => column_box cx cz x z) (for_range 0 CHUNK_SIZE))
             (for_range 0 CHUNK_SIZE).
Proof.
  unfold chunk_boxes, chunk_geometries, BufferGeometry. rewrite concat_flat_map.
  apply flat_map_ext. intros x.
  rewrite (map_ext _ (fun z => [column_box cx cz x z])) by (intros z; apply column_geometry_box).
  apply concat_singletons.
Qed.

Lemma world_boxes_chunks :
  world_boxes = flat_map (fun c => chunk_boxes (fst c) (snd c)) chunk_coordinates.
Proof. unfold world_boxes, world_blocks. apply concat_flat_map. Qed.

Lemma in_for_range (lo hi k : Z) : In k (for_range lo hi) <-> lo <= k < hi.
Proof. unfold for_range. rewrite <- list_elem_of_In, elem_of_seqZ. lia. Qed.

Lemma in_chunk_boxes (cx cz : Z) (b : Box) :
  In b (chunk_boxes cx cz) <->
  cx * 12 <= centreX b < cx * 12 + 12 /\ cz * 12 <= centreZ b < cz * 12 + 12 /\ on_terrain b.
Proof.
  rewrite chunk_boxes_columns, in_flat_map. unfold CHUNK_SIZE, on_terrain. split.
  - intros (x & Hx & Hb). apply in_map_iff in Hb as (z & <- & Hz).
    apply in_for_range in Hx, Hz. cbn [column_box centreX centreY centreZ].
    repeat split; lia.
  - intros (Hx & Hz & Hy). exists (centreX b - cx * 12). split; [apply in_for_range; lia|].
    apply in_map_iff. exists (centreZ b - cz * 12). split; [|apply in_for_range; lia].
    destruct b as [bx by_ bz]. cbn [centreX centreY centreZ] in *. unfold column_box.
    replace (cx * 12 + (bx - cx * 12)) with bx by lia.
    replace (cz * 12 + (bz - cz * 12)) with bz by lia.
    now rewrite Hy.
Qed.

Lemma in_chunk_coordinates (cx cz : Z) :
  In (cx, cz) chunk_coordinates <-> -3 <= cx < 3 /\ -3 <= cz < 3.
Proof. rewrite <- list_elem_of_In. apply elem_of_chunk_coordinates. Qed.

Lemma in_world_boxes (b : Box) :
  In b world_boxes <->
  -36 <= centreX b < 36 /\ -36 <= centreZ b < 36 /\ on_terrain b.
Proof.
  rewrite world_boxes_chunks, in_flat_map. split.
  - intros ([cx cz] & Hc & Hb). apply in_chunk_coordinates in Hc.
    apply in_chunk_boxes in Hb. cbn [fst snd] in Hb. repeat split; try lia. apply Hb.
  - intros (Hx & Hz & Hy). exists (centreX b / 12, centreZ b / 12).
    pose proof (Z.div_mod (centreX b) 12 ltac:(lia)) as Hdx.
    pose proof (Z.mod_pos_bound (centreX b) 12 ltac:(lia)) as Hmx.
    pose proof (Z.div_mod (centreZ b) 12 ltac:(lia)) as Hdz.
    pose proof (Z.mod_pos_bound (centreZ b) 12 ltac:(lia)) as Hmz.
    split.
    + apply in_chunk_coordinates. lia.
    + apply in_chunk_boxes. cbn [fst snd]. repeat split; try lia. exact Hy.
Qed.

Lemma NoDup_flat_map {A B : Type} (f : A -> list B) (l : list A) :
  NoDup l ->
  (forall a, In a l -> NoDup (f a)) ->
  (forall a a' b, In a l -> In a' l -> In b (f a) -> In b (f a') -> a = a') ->
  NoDup (flat_map f l).
Proof.
  induction 1 as [|a l Ha Hl IH]; intros Hf Hdisj; [constructor|].
  cbn. apply NoDup_app. split; [apply Hf; now left|split].
  - intros b Hb Hb'. apply list_elem_of_In in Hb, Hb'.
    apply in_flat_map in Hb' as (a' & Ha' & Hb').
    assert (a = a') by (apply (Hdisj a a' b); [now left|now right|assumption..]).
    subst a'. apply Ha. now apply list_elem_of_In.
  - apply IH.
    + intros a' Ha'. apply Hf. now right.
    + intros a1 a2 b H1 H2. apply Hdisj; now right.
Qed.

Lemma NoDup_for_range (lo hi : Z) : NoDup (for_range lo hi).
Proof. apply NoDup_seqZ. Qed.

Lemma NoDup_chunk_boxes (cx cz : Z) : NoDup (chunk_boxes cx cz).
Proof.
  rewrite chunk_boxes_columns. apply NoDup_flat_map.
  - apply NoDup_for_range.
  - intros x _. apply (NoDup_fmap_2_strong (fun z => column_box cx cz x z)); [|apply NoDup_for_range].
    intros z z' _ _ E. injection E. lia.
  - intros x x' b _ _ Hb Hb'.
    apply in_map_iff in Hb as (z & <- & _). apply in_map_iff in Hb' as (z' & E & _).
    injection E. lia.
Qed.

Lemma NoDup_chunk_coordinates : NoDup chunk_coordinates.
Proof.
  unfold chunk_coordinates. apply NoDup_flat_map.
  - apply NoDup_for_range.
  - intros cx _. apply (NoDup_fmap_2_strong (fun cz => (cx, cz))); [|apply NoDup_for_range].
    intros cz cz' _ _ E. now injection E.
  - intros cx cx' c _ _ Hc Hc'.
    apply in_map_iff in Hc as (cz & <- & _). apply in_map_iff in Hc' as (cz' & E & _).
    now injection E.
Qed.

Lemma NoDup_world_boxes : NoDup world_boxes.
Proof.
  rewrite world_boxes_chunks. apply NoDup_flat_map.
  - apply NoDup_chunk_coordinates.
  - intros [cx cz] _. apply NoDup_chunk_boxes.
  - intros [cx cz] [cx' cz'] b _ _ Hb Hb'.
    apply in_chunk_boxes in Hb, Hb'. cbn [fst snd] in *. f_equal; lia.
Qed.
End Grid.

(** X25.  The blocks built for the world stand one on each column of the
    square from -36 to 35 in [x] and in [z], at the height of the terrain,
    which is between 2 and 13; no block is built twice; and they are, in
    order, the boxes of the meshes of the world when the geometries are
    merged. *)
Theorem world_is_a_grid :
  (forall b : Box,
      b ∈ world_boxes <->
      (-36 <= centreX b < 36)%Z /\ (-36 <= centreZ b < 36)%Z /\ on_terrain b) /\
  NoDup world_boxes /\
  (forall b b' : Box,
      b ∈ world_boxes -> b' ∈ world_boxes ->
      centreX b = centreX b' -> centreZ b = centreZ b' -> b = b') /\
  (forall b : Box, b ∈ world_boxes -> (2 <= centreY b <= 13)%Z) /\
  flat_map geometry (chunks THREE_with_utils) = world_boxes.
Proof.
  split; [|split; [|split; [|split]]].
  - intros b. rewrite list_elem_of_In. apply in_world_boxes.
  - apply NoDup_world_boxes.
  - intros [x y z] [x' y' z'] Hb Hb' Hx Hz.
    apply list_elem_of_In, in_world_boxes in Hb, Hb'.
    destruct Hb as (_ & _ & Hy), Hb' as (_ & _ & Hy').
    unfold on_terrain in *. cbn [centreX centreY centreZ] in *. subst x' z'. congruence.
  - intros b Hb. apply list_elem_of_In, in_world_boxes in Hb as (_ & _ & ->).
    apply elevation_bounds.
  - rewrite chunks_by_coordinates, world_boxes_chunks, flat_map_concat_map, map_map.
    rewrite <- flat_map_concat_map. apply flat_map_ext. intros [cx cz]. cbn [geometry fst snd].
    now rewrite (createMergedChunk_merged _ Geometry.mergeGeometries).
Qed.

(** X26.  The blocks built for one chunk are those of its twelve by twelve
    columns, one on each, and no other chunk of the world builds a block on
    any of these columns. *)
Theorem chunk_owns_its_columns (cx cz : Z) :
  (forall b : Box,
      b ∈ chunk_boxes cx cz <->
      (cx * 12 <= centreX b < cx * 12 + 12)%Z /\
      (cz * 12 <= centreZ b < cz * 12 + 12)%Z /\ on_terrain b) /\
  NoDup (chunk_boxes cx cz) /\
  (forall (cx' cz' : Z) (b b' : Box),
      b ∈ chunk_boxes cx cz -> b' ∈ chunk_boxes cx' cz' ->
      centreX b = centreX b' -> centreZ b = centreZ b' -> cx' = cx /\ cz' = cz).
Proof.
  split; [|split].
  - intros b. rewrite list_elem_of_In. apply in_chunk_boxes.
  - apply NoDup_chunk_boxes.
  - intros cx' cz' b b' Hb Hb' Hx Hz.
    apply list_elem_of_In, in_chunk_boxes in Hb, Hb'. lia.
Qed.

(** ** What the effect leaves with the host *)

Section Teardown.
Import Dom.

Lemma filter_all {A : Type} (P : A -> Prop) `{!forall x, Decision (P x)} (l : list A) :
  Forall P l -> filter P l = l.
Proof.
  induction 1 as [|a l Ha _ IH]; [reflexivity|].
  now rewrite filter_cons_True, IH.
Qed.

Lemma filter_none {A : Type} (P : A -> Prop) `{!forall x, Decision (P x)} (l : list A) :
  Forall (fun x => ~ P x) l -> filter P l = [].
Proof.
  induction 1 as [|a l Ha _ IH]; [reflexivity|].
  now rewrite filter_cons_False.
Qed.

Lemma listeners_add_fresh (l : Listener) (h : Host) :
  l ∉ listeners h -> listeners (addEventListener l h) = listeners h ++ [l].
Proof. intros H. unfold addEventListener. now rewrite decide_False. Qed.

Lemma run_of_effect_listeners (r : nat) (l : Listener) :
  l ∈ effect_listeners r -> run_of l = r.
Proof.
  unfold effect_listeners. rewrite !elem_of_cons, elem_of_nil.
  intros [->|[->|[->|[->|[->|[->|[]]]]]]]; reflexivity.
Qed.

Ltac distinct_listeners :=
  rewrite ?elem_of_cons, elem_of_nil;
  let H := fresh in
  intros H; repeat (destruct H as [H|H]; [discriminate H|]); exact H.

Lemma setup_state (r : nat) (h : Host) :
  (forall l, l ∈ listeners h -> run_of l <> r) ->
  listeners (effect_setup r h) = listeners h ++ effect_listeners r /\
  children (effect_setup r h) = filter (fun x => x <> r) (children h) ++ [r] /\
  frame_requests (effect_setup r h) = frame_requests h ++ [r].
Proof.
  intros Hfresh. unfold effect_setup. cbv zeta.
  assert (Hstep : forall (added : list Listener) (l : Listener) (h' : Host),
            listeners h' = listeners h ++ added -> run_of l = r -> l ∉ added ->
            listeners (addEventListener l h') = listeners h ++ (added ++ [l])).
  { intros added l h' Hh' Hl Hadded. rewrite listeners_add_fresh.
    - now rewrite Hh', <- app_assoc.
    - rewrite Hh', elem_of_app. intros [H|H]; [now apply (Hfresh l)|now apply Hadded]. }
  assert (Hother : forall (l : Listener) (h' : Host),
            children (addEventListener l h') = children h' /\
            frame_requests (addEventListener l h') = frame_requests h').
  { intros l h'. unfold addEventListener. destruct (decide _); split; reflexivity. }
  split; [|split].
  - unfold effect_listeners.
    lazymatch goal with |- listeners (addEventListener ?l6 ?h6) = _ =>
      apply (Hstep [_; _; _; _; _] l6 h6); [|reflexivity|distinct_listeners] end.
    cbn [requestAnimationFrame listeners].
    lazymatch goal with |- listeners (addEventListener ?l5 ?h5) = _ =>
      apply (Hstep [_; _; _; _] l5 h5); [|reflexivity|distinct_listeners] end.
    lazymatch goal with |- listeners (addEventListener ?l4 ?h4) = _ =>
      apply (Hstep [_; _; _] l4 h4); [|reflexivity|distinct_listeners] end.
    lazymatch goal with |- listeners (addEventListener ?l3 ?h3) = _ =>
      apply (Hstep [_; _] l3 h3); [|reflexivity|distinct_listeners] end.
    lazymatch goal with |- listeners (addEventListener ?l2 ?h2) = _ =>
      apply (Hstep [_] l2 h2); [|reflexivity|distinct_listeners] end.
    lazymatch goal with |- listeners (addEventListener ?l1 ?h1) = _ =>
      apply (Hstep [] l1 h1); [|reflexivity|distinct_listeners] end.
    cbn [appendChild listeners]. now rewrite app_nil_r.
  - rewrite (proj1 (Hother _ _)). cbn [requestAnimationFrame children].
    now rewrite !(proj1 (Hother _ _)).
  - rewrite (proj2 (Hother _ _)). cbn [requestAnimationFrame frame_requests].
    now rewrite !(proj2 (Hother _ _)).
Qed.

Lemma cleanup_state (current : bool) (r : nat) (h : Host) :
  match effect_cleanup current r h with
  | Some h' =>
      (current = true -> r ∈ children h) /\
      listeners h' = filter (fun l => l ∉ effect_listeners r) (listeners h) /\
      children h' = (if current then filter (fun x => x <> r) (children h) else children h) /\
      frame_requests h' = frame_requests h
  | None => current = true /\ r ∉ children h
  end.
Proof.
  assert (Hl : forall h0 : Host,
             listeners
               (removeEventListener (mkListener document "pointerlockchange" cbPointerLockChange r)
               (removeEventListener (mkListener (domElement r) "click" cbClick r)
               (removeEventListener (mkListener (domElement r) "mousemove" cbMouseMove r)
               (removeEventListener (mkListener window "resize" cbResize r)
               (removeEventListener (mkListener window "keyup" cbKeyUp r)
               (removeEventListener (mkListener window "keydown" cbKeyDown r) h0)))))) =
             filter (fun l => l ∉ effect_listeners r) (listeners h0)).
  { intros h0. unfold removeEventListener. cbn [listeners].
    rewrite !list_filter_filter. apply list_filter_iff. intros l.
    unfold effect_listeners. rewrite !not_elem_of_cons.
    pose proof (not_elem_of_nil l). tauto. }
  unfold effect_cleanup. cbv zeta. destruct current.
  - unfold removeChild. cbn [removeEventListener children].
    destruct (decide (r ∈ children h)) as [Hin|Hin]; [|now split].
    split; [intros _; exact Hin|]. cbn [children frame_requests].
    split; [|split; reflexivity]. apply Hl.
  - split; [discriminate|]. split; [apply Hl|]. split; reflexivity.
Qed.

Lemma frame_state (r : nat) (h : Host) :
  listeners (frame r h) = listeners h /\
  children (frame r h) = children h /\
  (forall q, q ∈ frame_requests (frame r h) <-> q ∈ frame_requests h).
Proof.
  unfold frame. destruct (decide (r ∈ frame_requests h)) as [Hin|Hin].
  - cbn [requestAnimationFrame listeners children frame_requests].
    split; [reflexivity|split; [reflexivity|]]. intros q.
    rewrite elem_of_app, list_elem_of_difference, list_elem_of_singleton.
    destruct (decide (q = r)) as [->|Hq]; [tauto|]. split; [|tauto].
    intros [[H _]|H]; [exact H|contradiction].
  - split; [reflexivity|split; [reflexivity|tauto]].
Qed.

Lemma frames_state (k r : nat) (h : Host) :
  listeners (Nat.iter k (frame r) h) = listeners h /\
  children (Nat.iter k (frame r) h) = children h /\
  (forall q, q ∈ frame_requests (Nat.iter k (frame r) h) <-> q ∈ frame_requests h).
Proof.
  induction k as [|k (IHl & IHc & IHf)]; [cbn; tauto|].
  change (Nat.iter (S k) (frame r) h) with (frame r (Nat.iter k (frame r) h)).
  destruct (frame_state r (Nat.iter k (frame r) h)) as (Hl & Hc & Hf).
  rewrite Hl, Hc. split; [exact IHl|split; [exact IHc|]]. intros q. now rewrite Hf.
Qed.

Lemma filter_out_last (r : nat) (l : list nat) :
  r ∉ l -> filter (fun x => x <> r) (l ++ [r]) = l.
Proof.
  intros H. rewrite filter_app, filter_all, filter_none.
  - apply app_nil_r.
  - apply Forall_singleton. tauto.
  - apply Forall_forall. intros x Hx ->. contradiction.
Qed.

Lemma cleanup_of_live_run (current : bool) (r : nat) (h live : Host) :
  released r h ->
  listeners live = listeners h ++ effect_listeners r ->
  children live = children h ++ [r] ->
  exists h', effect_cleanup current r live = Some h' /\
             listeners h' = listeners h /\
             children h' = (if current then children h else children h ++ [r]) /\
             frame_requests h' = frame_requests live.
Proof.
  intros [Hl Hc] Hlive Hchildren. pose proof (cleanup_state current r live) as H.
  destruct (effect_cleanup current r live) as [h'|].
  - destruct H as (_ & Hl' & Hc' & Hf'). exists h'.
    split; [reflexivity|]. split; [|split; [|exact Hf']].
    + rewrite Hl', Hlive, filter_app, filter_all, filter_none.
      * apply app_nil_r.
      * apply Forall_forall. tauto.
      * apply Forall_forall. intros l Hin Hr.
        apply (Hl l Hin). now apply run_of_effect_listeners.
    + rewrite Hc', Hchildren. destruct current; [now apply filter_out_last|reflexivity].
  - exfalso. apply (proj2 H).
    rewrite Hchildren, elem_of_app, list_elem_of_singleton. now right.
Qed.

Lemma live_run (k r : nat) (h : Host) :
  released r h ->
  let live := Nat.iter k (frame r) (effect_setup r h) in
  listeners live = listeners h ++ effect_listeners r /\
  children live = children h ++ [r] /\
  (forall q, q ∈ frame_requests live <-> q ∈ frame_requests h \/ q = r).
Proof.
  intros [Hl Hc] live. destruct (setup_state r h Hl) as (Sl & Sc & Sf).
  destruct (frames_state k r (effect_setup r h)) as (Fl & Fc & Ff). fold live in Fl, Fc, Ff.
  split; [congruence|]. split.
  - rewrite Fc, Sc. f_equal. apply filter_all, Forall_forall. now intros x Hx ->.
  - intros q. now rewrite Ff, Sf, elem_of_app, list_elem_of_singleton.
Qed.

Lemma released_empty_host (r : nat) : released r empty_host.
Proof. split; [intros l H|intros H]; apply elem_of_nil in H; contradiction. Qed.

Lemma list_difference_last (r : nat) (l : list nat) :
  r ∉ l -> list_difference (l ++ [r]) [r] = l.
Proof.
  induction l as [|a l IH]; intros H.
  - cbn [app list_difference]. case_decide as Hr; [reflexivity|].
    exfalso. apply Hr, list_elem_of_here.
  - apply not_elem_of_cons in H as [Ha Hl]. cbn [app list_difference].
    case_decide as Hr; [apply list_elem_of_singleton in Hr; congruence|].
    now rewrite IH.
Qed.

(** X27.  The clean-up of a run releases what the run had set up except
    the frame loop: after the set-up of a run on a host that holds no
    listener and no canvas of that run, any number of its frames and its
    clean-up, which does not fail, the host holds the listeners it held
    before, every frame request it held before, and still the frame request
    of the run, which nothing cancels.  When [canvasRef.current] is set, as
    it is when the effect runs again, the canvases under the container are
    those of before; when it is null, as it is when the component is
    unmounted, the canvas of the run is left under the container. *)
Theorem cleanup_releases_all_but_frame_loop (current : bool) (k r : nat) (h : Host) :
  released r h ->
  exists h', effect_cleanup current r (Nat.iter k (frame r) (effect_setup r h)) = Some h' /\
             listeners h' = listeners h /\
             children h' = (if current then children h else children h ++ [r]) /\
             r ∈ frame_requests h' /\
             (forall q, q ∈ frame_requests h -> q ∈ frame_requests h').
Proof.
  intros Hr. destruct (live_run k r h Hr) as (Ll & Lc & Lf).
  destruct (cleanup_of_live_run current r h _ Hr Ll Lc) as (h' & E & Hl & Hc & Hf).
  exists h'. split; [exact E|]. split; [exact Hl|]. split; [exact Hc|].
  rewrite Hf. split; [|intros q Hq]; apply Lf; tauto.
Qed.

Lemma cleanup_releases_all_but_frame_loop_witness :
  released 0 empty_host /\
  (exists h', effect_cleanup true 0 (Nat.iter 3 (frame 0) (effect_setup 0 empty_host)) = Some h' /\
              listeners h' = listeners empty_host /\
              children h' = children empty_host /\
              0%nat ∈ frame_requests h' /\
              (forall q, q ∈ frame_requests empty_host -> q ∈ frame_requests h')) /\
  (exists h', effect_cleanup false 0 (Nat.iter 3 (frame 0) (effect_setup 0 empty_host)) = Some h' /\
              listeners h' = listeners empty_host /\
              children h' = children empty_host ++ [0%nat] /\
              0%nat ∈ frame_requests h' /\
              (forall q, q ∈ frame_requests empty_host -> q ∈ frame_requests h')).
Proof.
  split; [apply released_empty_host|]. split.
  - apply (cleanup_releases_all_but_frame_loop true 3 0 empty_host), released_empty_host.
  - apply (cleanup_releases_all_but_frame_loop false 3 0 empty_host), released_empty_host.
Defined.

(** X28.  Frame loops pile up: after the effect has run and been cleaned up
    [n] times over from an empty host, with a frame of the live run in
    between, no clean-up has failed, no listener and no canvas is left, and
    the [animate] of each of the [n] runs is still requested. *)
Theorem frame_loops_pile_up (n : nat) :
  exists h, remounts n empty_host = Some h /\
            listeners h = [] /\ children h = [] /\ frame_requests h = seq 0 n.
Proof.
  induction n as [|n (h & E & Hl & Hc & Hf)].
  - exists empty_host. repeat split.
  - cbn [remounts]. rewrite E.
    assert (Hr : released n h).
    { split; [intros l H|intros H]; rewrite ?Hl, ?Hc in H;
        apply elem_of_nil in H; contradiction. }
    destruct (live_run 1 n h Hr) as (Ll & Lc & _).
    change (Nat.iter 1 (frame n) (effect_setup n h)) with (frame n (effect_setup n h)) in Ll, Lc.
    destruct (cleanup_of_live_run true n h _ Hr Ll Lc) as (h' & E' & Hl' & Hc' & Hf').
    exists h'. split; [exact E'|]. split; [congruence|]. split; [congruence|].
    rewrite Hf'. destruct Hr as [Hfresh _].
    destruct (setup_state n h Hfresh) as (_ & _ & Sf).
    unfold frame. rewrite Sf, Hf.
    rewrite decide_True by (rewrite elem_of_app, list_elem_of_singleton; now right).
    cbn [requestAnimationFrame frame_requests].
    rewrite list_difference_last, seq_S; [reflexivity|].
    rewrite elem_of_seq. lia.
Qed.
End Teardown.
